(** * konf-go, [cmd/set.go]: the konf store and the [set] command

    A shallow embedding of [cmd/set.go] and of the library calls it makes
    (afero's filesystem, [filepath], [unicode/utf8], [fuzzy.Match]),
    followed by the properties of the store index, of the picker and of
    the activation.

    Go functions that return [(T, error)] become functions into [res T],
    which also has the run-time panics.  Functions that write files return
    the filesystem they leave.  The filesystem is the one [newSetCommand]
    installs, [afero.NewOsFs()].  The lines of [log.Info] and [log.Warn],
    file permissions and the rendering of the prompt are left out. *)

From Stdlib Require Import ZArith Lia Ascii.
From stdpp Require Import base option list gmap strings sorting pretty.

Open Scope Z_scope.

(** ** Go values *)

(** [syscall.Errno] values the filesystem operations below can produce. *)
Inductive Errno := ENOENT | EISDIR | ENOTDIR.

(** Go [error] values that occur in [set.go].  [fmt.Errorf] values keep
    their format string and arguments; [PathError] is [*fs.PathError] and
    [SkipDir] is [filepath.SkipDir]. *)
Inductive error :=
| PathError (Op Path : string) (Err : Errno)
| SkipDir
| EmptyStore
| KubeConfigOverload (path : string)
| Errorf (format : string) (a : list fmtArg)
with fmtArg :=
| ArgInt (n : Z)
| ArgError (e : error).

(** [errors.Is(err, fs.ErrNotExist)] *)
Definition IsNotExist (err : error) : bool :=
  match err with
  | PathError _ _ ENOENT => true
  | _ => false
  end.

(** Run-time panics of the Go code. *)
Inductive panic :=
| IndexOutOfRange (i len : Z)
| SliceOutOfRange (i len : Z)
| NilDereference.

(** Outcome of a Go function returning [(T, error)]: a value with a nil
    error, a non-nil error, or a panic. *)
Inductive res (A : Type) :=
| Ok (a : A)
| Err (e : error)
| Panicked (p : panic).
Arguments Ok {A} a.
Arguments Err {A} e.
Arguments Panicked {A} p.

Global Instance res_bind : MBind res := λ A B k r,
  match r with
  | Ok a => k a
  | Err e => Err e
  | Panicked p => Panicked p
  end.

(** [len(l)] and [l[i]] on a slice, with Go's bounds check. *)
Definition len {A} (l : list A) : Z := Z.of_nat (length l).

Definition index {A} (l : list A) (i : Z) : res A :=
  if bool_decide (0 ≤ i < len l) then
    match l !! Z.to_nat i with
    | Some a => Ok a
    | None => Panicked (IndexOutOfRange i (len l))
    end
  else Panicked (IndexOutOfRange i (len l)).

(** [l[i:]] *)
Definition sliceFrom {A} (l : list A) (i : Z) : res (list A) :=
  if bool_decide (0 ≤ i ≤ len l) then Ok (drop (Z.to_nat i) l)
  else Panicked (SliceOutOfRange i (len l)).

(** [strings.HasPrefix(s, prefix)] *)
Definition HasPrefix (s prefix : string) : bool :=
  Stdlib.Strings.String.prefix prefix s.

(** ** Paths ([path/filepath]) *)

(** [strings.TrimPrefix], telling whether the prefix was there. *)
Fixpoint CutPrefix (s prefix : string) : option string :=
  match prefix with
  | EmptyString => Some s
  | String c prefix' =>
      match s with
      | EmptyString => None
      | String d s' => if decide (c = d) then CutPrefix s' prefix' else None
      end
  end.

Fixpoint hasSeparator (s : string) : bool :=
  match s with
  | EmptyString => false
  | String c s' => bool_decide (c = "/"%char) || hasSeparator s'
  end.

(** [filepath.Join(dir, name)] for a cleaned [dir] other than the root and
    a directory entry [name]. *)
Definition Join (dir name : string) : string := dir +:+ "/" +:+ name.

(** The last non-empty [/]-separated element of a path. *)
Fixpoint lastElement (last cur s : string) : string :=
  match s with
  | EmptyString => if decide (cur = "") then last else cur
  | String c s' =>
      if decide (c = "/"%char)
      then lastElement (if decide (cur = "") then last else cur) "" s'
      else lastElement last (cur +:+ String c "") s'
  end.

(** [filepath.Base] *)
Definition Base (path : string) : string :=
  if decide (path = "") then "."
  else let b := lastElement "" "" path in
       if decide (b = "") then "/" else b.

(** The part of a path before its last separator, when it has one. *)
Fixpoint beforeLastSeparator (path : string) : option string :=
  match path with
  | EmptyString => None
  | String c path' =>
      match beforeLastSeparator path' with
      | Some dir => Some (String c dir)
      | None => if decide (c = "/"%char) then Some "" else None
      end
  end.

(** [filepath.Dir] on a cleaned path: the directory that holds the
    entry. *)
Definition Dir (path : string) : string :=
  match beforeLastSeparator path with
  | None => "."
  | Some dir => if decide (dir = "") then "/" else dir
  end.

(** ** The filesystem ([afero.Fs]) *)

(** A filesystem is a finite map from cleaned paths to nodes: the
    directories and regular files of the operating system's tree. *)
Inductive node :=
| FileNode (data : string)
| DirNode.

Global Instance node_eq_dec : EqDecision node.
Proof. solve_decision. Defined.

Definition isDir (n : node) : bool :=
  match n with DirNode => true | FileNode _ => false end.

Abbreviation Fs := (gmap string node).

(** The part of [fs.FileInfo] that [set.go] reads. *)
Record FileInfo := { Name : string; IsDir : bool }.

(** [fs.Stat] / [Lstat]: [None] stands for a nil [FileInfo] with a
    not-exist error. *)
Definition lstat (f : Fs) (path : string) : option FileInfo :=
  (λ n, {| Name := Base path; IsDir := isDir n |}) <$> f !! path.

(** [name] when [path] is the entry [name] of directory [dir]. *)
Definition entryName (dir path : string) : option string :=
  match CutPrefix path (dir +:+ "/") with
  | Some name =>
      if decide (name = "") then None
      else if hasSeparator name then None else Some name
  | None => None
  end.

Definition entryInfo (dir : string) (pn : string * node) : option FileInfo :=
  (λ name, {| Name := name; IsDir := isDir pn.2 |}) <$> entryName dir pn.1.

(** Order of directory entries: Go's [<=] on the names (bytewise
    lexicographic). *)
Definition byName (a b : FileInfo) : Prop := (Name a ≤ Name b)%string.

Global Instance byName_dec : RelDecision byName.
Proof. intros a b. unfold byName. apply _. Defined.

(** The entries of directory [dir] in lexical order, each with the
    [FileInfo] that [lstat] gives for it ([readDirNames] followed by
    [lstatIfPossible] in afero's [walk]). *)
Definition readDir (f : Fs) (dir : string) : list FileInfo :=
  merge_sort byName (omap (entryInfo dir) (map_to_list f)).

(** [f.Open(path)]: the node behind the handle. *)
Definition Open (f : Fs) (path : string) : res node :=
  match f !! path with
  | Some n => Ok n
  | None => Err (PathError "open" path ENOENT)
  end.

(** [afero.ReadAll(file)] on a handle obtained for [path]. *)
Definition ReadAll (path : string) (file : node) : res string :=
  match file with
  | FileNode data => Ok data
  | DirNode => Err (PathError "read" path EISDIR)
  end.

(** [afero.ReadFile(f, path)] *)
Definition ReadFile (f : Fs) (path : string) : res string :=
  file ← Open f path; ReadAll path file.

(** [afero.WriteFile(f, path, data, perm)], which opens [path] with
    [O_WRONLY|O_CREATE|O_TRUNC] and writes [data].  The open fails when
    the directory of [path] is missing ([ENOENT]) or is a regular file
    ([ENOTDIR]) and when [path] is itself a directory ([EISDIR]);
    otherwise the file is created or truncated and no other node changes.
    (The in-memory filesystem of the tests, [afero.NewMemMapFs()], differs
    where the directory is missing: it creates the directory and succeeds.
    Where the directory of [path] exists the two agree.) *)
Definition WriteFile (f : Fs) (path data : string) : Fs * option error :=
  match f !! Dir path with
  | None => (f, Some (PathError "open" path ENOENT))
  | Some (FileNode _) => (f, Some (PathError "open" path ENOTDIR))
  | Some DirNode =>
      match f !! path with
      | Some DirNode => (f, Some (PathError "open" path EISDIR))
      | _ => (<[path := FileNode data]> f, None)
      end
  end.

(** [err == filepath.SkipDir] *)
Definition isSkipDir (err : error) : bool :=
  match err with SkipDir => true | _ => false end.

(** A [filepath.WalkFunc] closure over a captured variable of type [St]:
    the new value of the variable and the returned error ([None] for nil).
    [Panicked] is a panic inside the closure. *)
Definition WalkFunc (St : Type) : Type :=
  string → option FileInfo → option error → St → res (St * option error).

Section walk.
Context {St : Type} (f : Fs) (walkFn : WalkFunc St).

(** The loop of afero's [walk] over the entries of [path].  The entries
    come from the same map as their [lstat], so the branch for a failed
    [lstat] does not arise. *)
Fixpoint walkEntries
    (walk : string → FileInfo → St → res (St * option error))
    (path : string) (entries : list FileInfo) (st : St)
    : res (St * option error) :=
  match entries with
  | [] => Ok (st, None)
  | fileInfo :: rest =>
      '(st', err) ← walk (Join path (Name fileInfo)) fileInfo st;
      match err with
      | None => walkEntries walk path rest st'
      | Some e =>
          if negb (IsDir fileInfo) || negb (isSkipDir e)
          then Ok (st', Some e)
          else walkEntries walk path rest st'
      end
  end.

(** afero's recursive [walk]; [depth] bounds the nesting of directories
    that is descended into. *)
Fixpoint walk (depth : nat) (path : string) (info : FileInfo) (st : St)
    : res (St * option error) :=
  '(st', err) ← walkFn path (Some info) None st;
  match err with
  | Some e =>
      if IsDir info && isSkipDir e then Ok (st', None) else Ok (st', Some e)
  | None =>
      if negb (IsDir info) then Ok (st', None)
      else match depth with
           | O => Ok (st', None)
           | S d => walkEntries (walk d) path (readDir f path) st'
           end
  end.

(** [afero.Walk(f, root, walkFn)].  A path nests at most as deep as the
    map has nodes. *)
Definition Walk (root : string) (st : St) : res (St * option error) :=
  match lstat f root with
  | None => walkFn root None (Some (PathError "lstat" root ENOENT)) st
  | Some info => walk (size f) root info st
  end.

End walk.

(** ** Strings as bytes and runes ([unicode/utf8]) *)

(** The bytes of a Go string. *)
Fixpoint bytes (s : string) : list Z :=
  match s with
  | EmptyString => []
  | String c s' => Z.of_N (N_of_ascii c) :: bytes s'
  end.

Definition RuneError : Z := 0xFFFD.

(** Entry of [utf8]'s table [first] for a leading byte: ASCII, invalid, or
    the size of the sequence with the range accepted for its second
    byte. *)
Inductive firstInfo :=
| firstASCII
| firstInvalid
| firstLead (sz : Z) (lo hi : Z).

Definition first (s0 : Z) : firstInfo :=
  if bool_decide (s0 < 0x80) then firstASCII
  else if bool_decide (s0 < 0xC2) then firstInvalid
  else if bool_decide (s0 ≤ 0xDF) then firstLead 2 0x80 0xBF
  else if bool_decide (s0 = 0xE0) then firstLead 3 0xA0 0xBF
  else if bool_decide (s0 ≤ 0xEC) then firstLead 3 0x80 0xBF
  else if bool_decide (s0 = 0xED) then firstLead 3 0x80 0x9F
  else if bool_decide (s0 ≤ 0xEF) then firstLead 3 0x80 0xBF
  else if bool_decide (s0 = 0xF0) then firstLead 4 0x90 0xBF
  else if bool_decide (s0 ≤ 0xF3) then firstLead 4 0x80 0xBF
  else if bool_decide (s0 = 0xF4) then firstLead 4 0x80 0x8F
  else firstInvalid.

(** [utf8.DecodeRuneInString]: the rune and the number of bytes read. *)
Definition DecodeRune (s : list Z) : Z * Z :=
  match s with
  | [] => (RuneError, 0)
  | s0 :: _ =>
      match first s0 with
      | firstASCII => (s0, 1)
      | firstInvalid => (RuneError, 1)
      | firstLead sz lo hi =>
          if bool_decide (len s < sz) then (RuneError, 1)
          else
            let s1 := nth 1 s 0 in
            if bool_decide (s1 < lo) || bool_decide (hi < s1)
            then (RuneError, 1)
            else if bool_decide (sz ≤ 2)
            then (Z.lor (Z.shiftl (Z.land s0 0x1F) 6) (Z.land s1 0x3F), 2)
            else
              let s2 := nth 2 s 0 in
              if bool_decide (s2 < 0x80) || bool_decide (0xBF < s2)
              then (RuneError, 1)
              else if bool_decide (sz ≤ 3)
              then (Z.lor (Z.lor (Z.shiftl (Z.land s0 0x0F) 12)
                                 (Z.shiftl (Z.land s1 0x3F) 6))
                          (Z.land s2 0x3F), 3)
              else
                let s3 := nth 3 s 0 in
                if bool_decide (s3 < 0x80) || bool_decide (0xBF < s3)
                then (RuneError, 1)
                else (Z.lor (Z.lor (Z.lor (Z.shiftl (Z.land s0 0x07) 18)
                                          (Z.shiftl (Z.land s1 0x3F) 12))
                                   (Z.shiftl (Z.land s2 0x3F) 6))
                            (Z.land s3 0x3F), 4)
      end
  end.

(** [utf8.RuneLen] *)
Definition RuneLen (r : Z) : Z :=
  if bool_decide (r < 0) then -1
  else if bool_decide (r ≤ 0x7F) then 1
  else if bool_decide (r ≤ 0x7FF) then 2
  else if bool_decide (0xD800 ≤ r) && bool_decide (r ≤ 0xDFFF) then -1
  else if bool_decide (r ≤ 0xFFFF) then 3
  else if bool_decide (r ≤ 0x10FFFF) then 4
  else -1.

(** The successive [DecodeRune] results over a string: each rune with the
    number of bytes it was read from.  [n] bounds the number of runes. *)
Fixpoint decodeRunes (n : nat) (s : list Z) : list (Z * Z) :=
  match n with
  | O => []
  | S n' =>
      match s with
      | [] => []
      | _ => let rw := DecodeRune s in
             rw :: decodeRunes n' (drop (Z.to_nat rw.2) s)
      end
  end.

(** The runes of a string, each with the number of bytes read for it: a
    string has no more runes than bytes. *)
Definition decode (s : list Z) : list (Z * Z) := decodeRunes (length s) s.

(** The number of bytes read for the runes of [l]. *)
Fixpoint widths (l : list (Z * Z)) : Z :=
  match l with
  | [] => 0
  | rw :: l' => rw.2 + widths l'
  end.

(** The number of bytes that encode the runes of [l]. *)
Fixpoint runeLens (l : list Z) : Z :=
  match l with
  | [] => 0
  | r :: l' => RuneLen r + runeLens l'
  end.

(** Byte offsets for a list of decoded runes starting at offset [i]. *)
Fixpoint withOffsets (i : Z) (l : list (Z * Z)) : list (Z * Z) :=
  match l with
  | [] => []
  | (r, w) :: l' => (i, r) :: withOffsets (i + w) l'
  end.

(** [for i, r := range s]: the pairs [(i, r)] the loop goes through. *)
Definition rangeString (s : list Z) : list (Z * Z) :=
  withOffsets 0 (decode s).

(** The runes of a string. *)
Definition runes (s : list Z) : list Z := (rangeString s).*2.

(** [utf8.ValidString]: every rune was read from its own encoding. *)
Definition ValidString (s : list Z) : bool :=
  forallb (λ rw, bool_decide (RuneLen rw.1 = rw.2)) (decode s).

(** ** [fuzzy.Match] (lithammer/fuzzysearch) *)

(** The loop labelled [Outer] of [match], over the runes of [source]. *)
Fixpoint matchOuter (source : list Z) (target : list Z) : res bool :=
  match source with
  | [] => Ok true
  | r1 :: source' =>
      match List.find (λ ir, bool_decide (r1 = ir.2)) (rangeString target) with
      | Some (i, r2) =>
          target' ← sliceFrom target (i + RuneLen r2);
          matchOuter source' target'
      | None => Ok false
      end
  end.

(** [fuzzy.Match(source, target)]; its transformer leaves both strings as
    they are. *)
Definition Match (source target : string) : res bool :=
  let source := bytes source in
  let target := bytes target in
  let lenDiff := len target - len source in
  if bool_decide (lenDiff < 0) then Ok false
  else if bool_decide (lenDiff = 0) && bool_decide (source = target)
  then Ok true
  else matchOuter (runes source) target.


(** ** Collaborators of [set.go] *)

(** [k8s.Config] of client-go, as far as [set.go] reads it: the names of
    the contexts and of the clusters. *)
Module k8s.
Record NamedCluster := { ClusterName : string }.
Record NamedContext := { ContextName : string }.
Record Config := {
  Clusters : list NamedCluster;
  Contexts : list NamedContext;
}.
End k8s.

(** [tableOutput] describes a formatting of kubekonf information. *)
Record tableOutput := {
  Context : string;
  Cluster : string;
  File : string;
}.

(** The interactive prompt ([promptui.Select]) as [createPrompt] fills it;
    the row templates and the label only affect the rendering. *)
Record Select := {
  Items : list tableOutput;
  HideSelected : bool;
  Searcher : string → Z → res bool;
  Size : Z;
}.

(** [promptFunc]: from the prompt to the selected position and an error. *)
Definition promptFunc : Type := Select → Z * option error.

(** What [set.go] takes from the packages [config], [utils] and [prompt]
    of the repository, from [sigs.k8s.io/yaml] and from the process.
    [Unmarshal val] is [yaml.Unmarshal(val, kubeconf)] into an empty
    [k8s.Config]: [None] when it returns an error. *)
Class Deps := {
  StoreDir : string;
  LatestKonfFile : string;
  StorePathForID : string → string;
  ActivePathForID : string → string;
  IDFromFileInfo : FileInfo → string;
  IDFromClusterAndContext : string → string → string;
  Unmarshal : string → option k8s.Config;
  Terminal : promptFunc;
  Getppid : Z;
}.

(** [fmt.Sprint] of an [int] *)
Definition Sprint (n : Z) : string := pretty n.

(** ** [set.go] *)

Section set.
Context {D : Deps}.

(** The closure passed to [afero.Walk] in [fetchKonfs]; it appends to the
    captured [konfs]. *)
Definition fetchKonfs_walkFn : WalkFunc (list FileInfo) :=
  λ path info err konfs,
    match info with
    | None => Panicked NilDereference
    | Some info =>
        if IsDir info && negb (bool_decide (path = StoreDir))
        then Ok (konfs, Some SkipDir)
        else if HasPrefix (Name info) "."
        then Ok (konfs, None)
        else Ok (konfs ++ [info], None)
    end.

(** [sort.Slice(konfs, func(i, j int) bool { return konfs[i].Name() <
    konfs[j].Name() })]; the entries of one directory have distinct
    names, which leaves one sorted order. *)
Definition sortSlice (konfs : list FileInfo) : list FileInfo :=
  merge_sort byName konfs.

(** The loop of [fetchKonfs] over the sorted [konfs], appending to
    [out]. *)
Fixpoint fetchKonfs_loop (f : Fs) (konfs : list FileInfo)
    (out : list tableOutput) : res (list tableOutput) :=
  match konfs with
  | [] => Ok out
  | konf :: konfs' =>
      let id := IDFromFileInfo konf in
      let path := StorePathForID id in
      file ← Open f path;
      val ← ReadAll path file;
      match Unmarshal val with
      | None => fetchKonfs_loop f konfs' out
      | Some kubeconf =>
          if bool_decide (len (k8s.Contexts kubeconf) > 1)
             || bool_decide (len (k8s.Clusters kubeconf) > 1)
          then Err (KubeConfigOverload path)
          else
            context ← index (k8s.Contexts kubeconf) 0;
            cluster ← index (k8s.Clusters kubeconf) 0;
            let t := {| Context := k8s.ContextName context;
                        Cluster := k8s.ClusterName cluster;
                        File := path |} in
            fetchKonfs_loop f konfs' (out ++ [t])
      end
  end.

(** [fetchKonfs] returns a list of all konfs currently in konfDir/store. *)
Definition fetchKonfs (f : Fs) : res (list tableOutput) :=
  '(konfs, err) ← Walk f fetchKonfs_walkFn StoreDir [];
  match err with
  | Some e => Err e
  | None =>
      konfs ← sliceFrom konfs 1;
      let konfs := sortSlice konfs in
      if bool_decide (len konfs = 0) then Err EmptyStore
      else fetchKonfs_loop f konfs []
  end.

(** [fmt.Sprintf("%s %s %s", curItem.Context, curItem.Cluster,
    curItem.File)] *)
Definition searchSurface (curItem : tableOutput) : string :=
  Context curItem +:+ " " +:+ Cluster curItem +:+ " " +:+ File curItem.

Definition searchKonf (searchTerm : string) (curItem : tableOutput)
    : res bool :=
  Match searchTerm (searchSurface curItem).

Definition createPrompt (options : list tableOutput) : Select :=
  let wrapSearchKonf := λ (input : string) (i : Z),
    curItem ← index options i; searchKonf input curItem in
  {| Items := options;
     HideSelected := true;
     Searcher := wrapSearchKonf;
     Size := 15 |}.

Definition selectContext (f : Fs) (pf : promptFunc) : res string :=
  k ← fetchKonfs f;
  let p := createPrompt k in
  match pf p with
  | (_, Some err) => Err err
  | (selPos, None) =>
      if bool_decide (selPos >= len k)
      then Err (Errorf "invalid selection %d" [ArgInt selPos])
      else
        sel ← index k selPos;
        Ok (IDFromClusterAndContext (Cluster sel) (Context sel))
  end.

Definition selectLastKonf (f : Fs) : res string :=
  match ReadFile f LatestKonfFile with
  | Ok b => Ok b
  | Err err =>
      if IsNotExist err
      then Err (Errorf
        "could not select latest konf, because no konf was yet set" [])
      else Err err
  | Panicked p => Panicked p
  end.

(** [setContext]: the filesystem it leaves and its result. *)
Definition setContext (id : string) (f : Fs) : Fs * res string :=
  match ReadFile f (StorePathForID id) with
  | Ok konf =>
      let ppid := Getppid in
      let activeKonf := ActivePathForID (Sprint ppid) in
      match WriteFile f activeKonf konf with
      | (f', Some err) => (f', Err err)
      | (f', None) => (f', Ok activeKonf)
      end
  | Err err => (f, Err err)
  | Panicked p => (f, Panicked p)
  end.

Definition saveLatestKonf (f : Fs) (id : string) : Fs * option error :=
  WriteFile f LatestKonfFile id.

(** The method [set] of [setCmd]: the filesystem it leaves, the lines printed on
    standard output and the returned error ([Ok tt] for nil). *)
Definition set (f : Fs) (args : list string)
    : Fs * list string * res () :=
  let selected : res string :=
    match args with
    | [] => selectContext f Terminal
    | arg0 :: _ =>
        if bool_decide (arg0 = "-") then selectLastKonf f else Ok arg0
    end in
  match selected with
  | Err err => (f, [], Err err)
  | Panicked p => (f, [], Panicked p)
  | Ok id =>
      match setContext id f with
      | (f1, Err err) => (f1, [], Err err)
      | (f1, Panicked p) => (f1, [], Panicked p)
      | (f1, Ok context) =>
          match saveLatestKonf f1 id with
          | (f2, Some err) =>
              (f2, [], Err (Errorf
                "could not save latest konf. As a result 'konf set -' might not work: %q "
                [ArgError err]))
          | (f2, None) => (f2, ["KUBECONFIGCHANGE:" +:+ context], Ok ())
          end
      end
  end.

(** [cobra.ShellCompDirective] values used by [completeSet]. *)
Inductive ShellCompDirective :=
| ShellCompDirectiveError
| ShellCompDirectiveNoFileComp.

(** The method [completeSet] of [setCmd]; [None] is a nil slice. *)
Definition completeSet (f : Fs)
    : res (option (list string) * ShellCompDirective) :=
  match fetchKonfs f with
  | Err EmptyStore => Ok (Some [], ShellCompDirectiveNoFileComp)
  | Err _ => Ok (None, ShellCompDirectiveError)
  | Panicked p => Panicked p
  | Ok konfs =>
      Ok (Some ((λ konf,
                  IDFromClusterAndContext (Cluster konf) (Context konf))
                <$> konfs),
          ShellCompDirectiveNoFileComp)
  end.

End set.

(** ** A sample installation *)

(** The collaborators as the tests of [set.go] show them: store paths are
    [storeDir + "/" + id + ".yaml"], the identifier of a file is its name
    without the extension, and the identifier of a konf is
    [context + "_" + cluster]. *)
Module Sample.

Fixpoint hasDot (s : string) : bool :=
  match s with
  | EmptyString => false
  | String c s' => bool_decide (c = "."%char) || hasDot s'
  end.

(** [strings.TrimSuffix(name, filepath.Ext(name))] on an entry name. *)
Fixpoint trimExt (name : string) : string :=
  match name with
  | EmptyString => ""
  | String c s' =>
      if hasDot s' then String c (trimExt s')
      else if bool_decide (c = "."%char) then ""
      else String c (trimExt s')
  end.

Definition docEU : string :=
  "{apiVersion: v1, kind: Config, clusters: [{name: dev-eu-1}], contexts: [{name: dev-eu}]}".
Definition docASIA : string :=
  "{apiVersion: v1, kind: Config, clusters: [{name: dev-asia-1}], contexts: [{name: dev-asia}]}".
Definition docMultiCluster : string :=
  "{apiVersion: v1, kind: Config, clusters: [{name: dev-eu-1}, {name: dev-asia-1}], contexts: [{name: dev-eu}]}".
Definition docMultiContext : string :=
  "{apiVersion: v1, kind: Config, clusters: [{name: dev-eu-1}], contexts: [{name: dev-eu}, {name: dev-asia}]}".
Definition docNoEntries : string :=
  "{apiVersion: v1, kind: Config}".
Definition docInvalid : string :=
  "I am not a kubeconfig".

Definition config (clusters contexts : list string) : k8s.Config :=
  {| k8s.Clusters := k8s.Build_NamedCluster <$> clusters;
     k8s.Contexts := k8s.Build_NamedContext <$> contexts |}.

(** [yaml.Unmarshal] on the sample documents; every other content counts
    as malformed here. *)
Definition unmarshal (val : string) : option k8s.Config :=
  if bool_decide (val = docEU) then Some (config ["dev-eu-1"] ["dev-eu"])
  else if bool_decide (val = docASIA)
  then Some (config ["dev-asia-1"] ["dev-asia"])
  else if bool_decide (val = docMultiCluster)
  then Some (config ["dev-eu-1"; "dev-asia-1"] ["dev-eu"])
  else if bool_decide (val = docMultiContext)
  then Some (config ["dev-eu-1"] ["dev-eu"; "dev-asia"])
  else if bool_decide (val = docNoEntries) then Some (config [] [])
  else None.

(** The dependencies with prompt function [pf]. *)
Definition deps (pf : promptFunc) : Deps :=
  {| StoreDir := "konf/store";
     LatestKonfFile := "konf/latestkonf";
     StorePathForID := λ id, "konf/store" +:+ "/" +:+ id +:+ ".yaml";
     ActivePathForID := λ id, "konf/active" +:+ "/" +:+ id +:+ ".yaml";
     IDFromFileInfo := λ fi, trimExt (Name fi);
     IDFromClusterAndContext := λ cl co, co +:+ "_" +:+ cl;
     Unmarshal := unmarshal;
     Terminal := pf;
     Getppid := 4711 |}.

(** A prompt in which the user picks position [i]. *)
Definition pick (i : Z) : promptFunc := λ _, (i, None).

(** The installation with a user who picks the first row. *)
Definition installation : Deps := deps (pick 0).

(** A filesystem with the directories of the installation and the given
    store entries. *)
Definition storeWith (entries : list (string * node)) : Fs :=
  list_to_map
    ([("konf", DirNode); ("konf/store", DirNode); ("konf/active", DirNode)]
     ++ (prod_map (λ name, "konf/store/" +:+ name) id <$> entries)).

Definition euFile : string * node :=
  ("dev-eu_dev-eu-1.yaml", FileNode docEU).
Definition asiaFile : string * node :=
  ("dev-asia_dev-asia-1.yaml", FileNode docASIA).

(** The store of the tests: two konfs. *)
Definition fsTwo : Fs := storeWith [euFile; asiaFile].

(** A store with a single, malformed file. *)
Definition fsMalformed : Fs := storeWith [("bad.yaml", FileNode docInvalid)].

(** A store whose first file is a kubeconfig without clusters and
    contexts. *)
Definition fsNoEntries : Fs :=
  storeWith [("blank.yaml", FileNode docNoEntries); euFile].

(** A store with a malformed file, two konfs, a file with two clusters
    and a konf after it. *)
Definition fsOverloaded : Fs :=
  storeWith [euFile; asiaFile; ("bad.yaml", FileNode docInvalid);
             ("multi.yaml", FileNode docMultiCluster);
             ("z.yaml", FileNode docEU)].

(** A store with a konf and a hidden file with two clusters. *)
Definition fsHiddenOverloaded : Fs :=
  storeWith [euFile; (".multi.yaml", FileNode docMultiCluster)].

(** A store with two files that each hold more than one cluster or
    context. *)
Definition fsTwoOverloaded : Fs :=
  storeWith [("a.yaml", FileNode docMultiCluster);
             ("b.yaml", FileNode docMultiContext)].

(** The store of the tests with a directory where the latest konf is
    recorded. *)
Definition fsLatestDir : Fs := <["konf/latestkonf" := DirNode]> fsTwo.

Definition file (name : string) : FileInfo :=
  {| Name := name; IsDir := false |}.

Definition abc : tableOutput :=
  {| Context := "a"; Cluster := "b"; File := "c" |}.

End Sample.

(** ** Vocabulary for the properties *)

Section vocabulary.
Context {D : Deps}.

(** The path under which [fetchKonfs] opens the konf it found as [konf]. *)
Definition konfPath (konf : FileInfo) : string :=
  StorePathForID (IDFromFileInfo konf).

(** What [fetchKonfs] reads for [konf]: the parsed document, [None] when
    the content is malformed. *)
Definition readKonf (f : Fs) (konf : FileInfo) : res (option k8s.Config) :=
  val ← ReadFile f (konfPath konf); Ok (Unmarshal val).

(** A directory entry that is neither a directory nor hidden. *)
Definition visible (info : FileInfo) : bool :=
  negb (IsDir info) && negb (HasPrefix (Name info) ".").

(** The files of the store that pass the filter, in name order. *)
Definition storeKonfs (f : Fs) : list FileInfo :=
  sortSlice (filter visible (readDir f StoreDir)).

(** The store directory exists and is not itself hidden. *)
Definition storePresent (f : Fs) : Prop :=
  f !! StoreDir = Some DirNode ∧ HasPrefix (Base StoreDir) "." = false.

(** The konf holds a document with more than one cluster or context. *)
Definition overloaded (f : Fs) (konf : FileInfo) : Prop :=
  ∃ kubeconf, readKonf f konf = Ok (Some kubeconf) ∧
    (len (k8s.Contexts kubeconf) > 1 ∨ len (k8s.Clusters kubeconf) > 1).

(** The konf is malformed: its content does not parse. *)
Definition malformed (f : Fs) (konf : FileInfo) : Prop :=
  readKonf f konf = Ok None.

(** The konf holds a document with exactly one cluster and one context,
    which give the entry [t]. *)
Definition indexedAs (f : Fs) (konf : FileInfo) (t : tableOutput) : Prop :=
  ∃ context cluster,
    readKonf f konf
      = Ok (Some {| k8s.Clusters := [cluster]; k8s.Contexts := [context] |}) ∧
    t = {| Context := k8s.ContextName context;
           Cluster := k8s.ClusterName cluster;
           File := konfPath konf |}.

(** The runes of the search term occur in order, not necessarily next to
    each other, among the runes of the search surface of the entry. *)
Definition matchesExact (query : string) (entry : tableOutput) : Prop :=
  runes (bytes query) `sublist_of` runes (bytes (searchSurface entry)).

(** Lower case of the letters A to Z. *)
Definition foldCase (r : Z) : Z :=
  if bool_decide (0x41 ≤ r ≤ 0x5A) then r + 0x20 else r.

(** The relation as the specification words it: the same, compared
    case-insensitively (here on the letters A to Z). *)
Definition matchesFold (query : string) (entry : tableOutput) : Prop :=
  (foldCase <$> runes (bytes query))
    `sublist_of` (foldCase <$> runes (bytes (searchSurface entry))).

(** The error of [selectLastKonf] when nothing was set yet. *)
Definition nothingSetYet : error :=
  Errorf "could not select latest konf, because no konf was yet set" [].

End vocabulary.

(** ** The table of the prompt *)

(** [strings.Repeat(s, count)]: [None] is the panic on a negative
    count. *)
Fixpoint repeatString (s : string) (n : nat) : string :=
  match n with
  | O => ""
  | S n' => s +:+ repeatString s n'
  end.

Definition Repeat (s : string) (count : Z) : option string :=
  if bool_decide (count < 0) then None
  else Some (repeatString s (Z.to_nat count)).

(** The double quote of the row templates. *)
Definition quote : string := String "034" "".

(** One cell of a row template, [fmt.Sprintf] done: [width] for the verb
    with index 1 and [style] for the verb with index 2; [gap] is what
    stands between the width of [repeat] and the quoted space. *)
Definition cellTemplate (field gap : string) (width : Z) (style : string)
    : string :=
  "{{ repeat " +:+ Sprint width +:+ gap +:+ quote +:+ " " +:+ quote
  +:+ " | print ." +:+ field +:+ " | trunc " +:+ Sprint width
  +:+ " | " +:+ style +:+ " }}".

(** A row template of [prepareTable] after [marker]. *)
Definition rowTemplate (marker : string) (width : Z) (style : string)
    : string :=
  marker +:+ cellTemplate "Context" " " width style +:+ " | "
  +:+ cellTemplate "Cluster" " " width style +:+ " | "
  +:+ cellTemplate "File" "  " width style +:+ " |".

(** The marker of the active row: a black right-pointing small
    triangle and a space. *)
Definition activeMarker : string :=
  String "226" (String "150" (String "184" " ")).

(** [prepareTable] takes in the max length of each column and returns
    table rows for active, inactive and header; [None] is a panic. *)
Definition prepareTable (maxColumnLen : Z)
    : option (string * string * string) :=
  let minColumnLen := 7 in
  let maxColumnLen :=
    if bool_decide (maxColumnLen < minColumnLen) then minColumnLen
    else maxColumnLen in
  let inactive := rowTemplate "  " maxColumnLen "" in
  let active := rowTemplate activeMarker maxColumnLen "bold | cyan" in
  pad1 ← Repeat " " (maxColumnLen - 7);
  pad2 ← Repeat " " (maxColumnLen - 7);
  pad3 ← Repeat " " (maxColumnLen - 4);
  let label := "  Context" +:+ pad1 +:+ " | " +:+ "Cluster" +:+ pad2
               +:+ " | " +:+ "File" +:+ pad3 +:+ " " in
  Some (inactive, active, label).

(** ** More vocabulary *)

Section vocabulary_index.
Context {D : Deps}.

(** The entry that the loop of [fetchKonfs] appends for [konf]: none for
    a konf it skips. *)
Definition indexKonf (f : Fs) (konf : FileInfo) : option tableOutput :=
  match readKonf f konf with
  | Ok (Some kubeconf) =>
      match k8s.Contexts kubeconf, k8s.Clusters kubeconf with
      | [context], [cluster] =>
          Some {| Context := k8s.ContextName context;
                  Cluster := k8s.ClusterName cluster;
                  File := konfPath konf |}
      | _, _ => None
      end
  | _ => None
  end.

(** The path [setContext] writes. *)
Definition activePath : string := ActivePathForID (Sprint Getppid).

(** The line that [set] prints for the shell hook. *)
Definition signal : string := "KUBECONFIGCHANGE:" +:+ activePath.

(** The identifier of an entry, as [selectContext] and [completeSet]
    build it. *)
Definition entryID (t : tableOutput) : string :=
  IDFromClusterAndContext (Cluster t) (Context t).

(** All bytes are ASCII. *)
Definition isASCII (s : string) : Prop := Forall (λ b, b < 0x80) (bytes s).

(** The three fields of an entry are valid UTF-8. *)
Definition validEntry (t : tableOutput) : Prop :=
  ValidString (bytes (Context t)) ∧ ValidString (bytes (Cluster t)) ∧
  ValidString (bytes (File t)).

End vocabulary_index.

(** ** More sample stores *)

Module Scenario.

(** The store of the tests with a malformed file. *)
Definition fsWithBad : Fs :=
  Sample.storeWith
    [Sample.euFile; Sample.asiaFile;
     ("no-konf.yaml", FileNode Sample.docInvalid)].

(** A store with nothing but a hidden file and a directory. *)
Definition fsNothingVisible : Fs :=
  Sample.storeWith [(".DS_Store", FileNode "x"); ("old", DirNode)].

(** The entries of the store of the tests. *)
Definition asia : tableOutput :=
  {| Context := "dev-asia"; Cluster := "dev-asia-1";
     File := "konf/store/dev-asia_dev-asia-1.yaml" |}.
Definition eu : tableOutput :=
  {| Context := "dev-eu"; Cluster := "dev-eu-1";
     File := "konf/store/dev-eu_dev-eu-1.yaml" |}.

(** A store whose single konf is not named after its context and
    cluster. *)
Definition fsRenamed : Fs :=
  Sample.storeWith [("prod.yaml", FileNode Sample.docEU)].

(** A store with a file whose name does not end in [.yaml] before a
    konf. *)
Definition fsNotes : Fs :=
  Sample.storeWith [("a-notes.txt", FileNode "to do"); Sample.euFile].

(** The store of the tests with a hidden file, a directory and a file
    inside it. *)
Definition fsCluttered : Fs :=
  Sample.storeWith
    [Sample.euFile; Sample.asiaFile; (".DS_Store", FileNode "x");
     ("old", DirNode);
     ("old/dev-eu_dev-eu-1.yaml", FileNode Sample.docMultiCluster)].

(** A store whose only file is a konf with the extension [.yml]. *)
Definition fsYml : Fs :=
  Sample.storeWith [("dev-eu_dev-eu-1.yml", FileNode Sample.docEU)].

(** A filesystem in which the store path is a regular file. *)
Definition fsStoreIsFile : Fs :=
  list_to_map [("konf", DirNode); ("konf/store", FileNode "x")].

End Scenario.

(** ** Properties *)

(** *** The latest konf and the activation *)

Section activation.
Context {D : Deps}.

(** A write either fails and leaves the filesystem as it was, or it finds
    the directory of the path, no directory at the path, and sets that one
    node. *)
Lemma WriteFile_cases (f f' : Fs) (path data : string) e :
  WriteFile f path data = (f', e) →
  (f' = f ∧ ∃ err, e = Some err) ∨
  (f' = <[path := FileNode data]> f ∧ e = None ∧
   f !! Dir path = Some DirNode ∧ f !! path ≠ Some DirNode).
Proof.
  unfold WriteFile.
  destruct (f !! Dir path) as [[data1|]|]; [intros [= <- <-]; eauto| |
    intros [= <- <-]; eauto].
  destruct (f !! path) as [[data0|]|] eqn:Hpath; intros [= <- <-]; eauto.
Qed.

Lemma ReadFile_WriteFile (f f' : Fs) (path data : string) :
  WriteFile f path data = (f', None) → ReadFile f' path = Ok data.
Proof.
  intros [[_ [err [=]]]|(-> & _)]%WriteFile_cases.
  unfold ReadFile, Open. by rewrite lookup_insert_eq.
Qed.

Lemma ReadFile_WriteFile_ne (f f' : Fs) (path path' data : string) e :
  WriteFile f path data = (f', e) → path ≠ path' →
  ReadFile f' path' = ReadFile f path'.
Proof.
  intros [[-> _]|(-> & _)]%WriteFile_cases Hne; [done|].
  unfold ReadFile, Open. by rewrite lookup_insert_ne.
Qed.

Lemma WriteFile_failed (f f' : Fs) (path data : string) e :
  WriteFile f path data = (f', Some e) → f' = f.
Proof. by intros [[-> _]|(_ & [=] & _)]%WriteFile_cases. Qed.

Lemma ReadFile_missing (f : Fs) (path : string) :
  f !! path = None → ReadFile f path = Err (PathError "open" path ENOENT).
Proof. unfold ReadFile, Open. by intros ->. Qed.

Lemma ReadFile_Err (f : Fs) (path : string) (e : error) :
  ReadFile f path = Err e →
  (f !! path = None ∧ e = PathError "open" path ENOENT) ∨
  (f !! path = Some DirNode ∧ e = PathError "read" path EISDIR).
Proof.
  unfold ReadFile, Open.
  destruct (f !! path) as [[data|]|]; cbn; intros; simplify_eq; auto.
Qed.

(** C7: [selectLastKonf] after a successful [saveLatestKonf f x] returns
    exactly [x]; without a record it fails with the nothing-set-yet
    error, and every other failure is the read error itself, a
    [PathError], which differs from it. *)
Theorem selectLastKonf_saveLatestKonf (f : Fs) (x : string) :
  (∀ f', saveLatestKonf f x = (f', None) → selectLastKonf f' = Ok x) ∧
  (f !! LatestKonfFile = None → selectLastKonf f = Err nothingSetYet) ∧
  (∀ e, selectLastKonf f = Err e →
     (f !! LatestKonfFile = None ∧ e = nothingSetYet) ∨
     (e ≠ nothingSetYet ∧ ReadFile f LatestKonfFile = Err e ∧
      ∃ op path errno, e = PathError op path errno)).
Proof.
  split_and!.
  - intros f' Hsave. unfold selectLastKonf.
    by rewrite (ReadFile_WriteFile _ _ _ _ Hsave).
  - intros Hnone. unfold selectLastKonf.
    by rewrite (ReadFile_missing _ _ Hnone).
  - intros e. unfold selectLastKonf.
    destruct (ReadFile f LatestKonfFile) as [b|e'|p] eqn:Hread; [done| |done].
    destruct (ReadFile_Err _ _ _ Hread) as [[Hnone ->]|[Hdir ->]]; cbn.
    + intros [= <-]. by left.
    + intros [= <-]. right. split_and!; [done|done|eauto].
Qed.

(** C6: when the store file of [id] holds [konf] and [setContext]
    succeeds, it returns the active path of the parent process, and that
    path then holds exactly [konf], as the store file still does; when
    the store file is missing, [setContext] fails with a not-exist error
    and leaves the filesystem as it was. *)
Theorem setContext_copy (id : string) (f : Fs) :
  (∀ konf f' activeKonf,
     ReadFile f (StorePathForID id) = Ok konf →
     setContext id f = (f', Ok activeKonf) →
     activeKonf = ActivePathForID (Sprint Getppid) ∧
     ReadFile f' activeKonf = Ok konf ∧
     ReadFile f' (StorePathForID id) = Ok konf) ∧
  (f !! StorePathForID id = None →
     ∃ err, setContext id f = (f, Err err) ∧ IsNotExist err = true).
Proof.
  split.
  - intros konf f' activeKonf Hread. unfold setContext. rewrite Hread.
    destruct (WriteFile _ _ _) as [f1 [e|]] eqn:Hw; [done|].
    intros [= <- <-]. split_and!; [done|by eapply ReadFile_WriteFile|].
    destruct (decide (ActivePathForID (Sprint Getppid) = StorePathForID id))
      as [Heq|Hne].
    + rewrite <-Heq. by eapply ReadFile_WriteFile.
    + by rewrite (ReadFile_WriteFile_ne _ _ _ _ _ _ Hw Hne).
  - intros Hnone. unfold setContext.
    rewrite (ReadFile_missing _ _ Hnone). eauto.
Qed.

(** C5, what the code does instead: when [setContext] succeeds and
    [saveLatestKonf] then fails, [set] returns an error and prints
    nothing, so no [KUBECONFIGCHANGE] line, although the active konf has
    been written. *)
Theorem set_saveLatestKonf_failure (f f1 f2 : Fs) (id context : string)
    (err : error) :
  id ≠ "-" →
  setContext id f = (f1, Ok context) →
  saveLatestKonf f1 id = (f2, Some err) →
  set f [id]
  = (f2, [],
     Err (Errorf
       "could not save latest konf. As a result 'konf set -' might not work: %q "
       [ArgError err])) ∧
  ReadFile f2 context = ReadFile f (StorePathForID id).
Proof.
  intros Hid Hset Hsave. unfold set.
  rewrite bool_decide_eq_false_2 by done. rewrite Hset, Hsave.
  split; [done|].
  rewrite (WriteFile_failed _ _ _ _ _ Hsave).
  unfold setContext in Hset.
  destruct (ReadFile f (StorePathForID id)) as [konf| |]; [|done..].
  destruct (WriteFile _ _ _) as [f1' [e|]] eqn:Hw; [done|].
  simplify_eq. by eapply ReadFile_WriteFile.
Qed.

End activation.

(** *** The store index *)

Section store.
Context {D : Deps}.

Lemma string_length_app (a b : string) :
  Stdlib.Strings.String.length (a +:+ b)
  = (Stdlib.Strings.String.length a + Stdlib.Strings.String.length b)%nat.
Proof. induction a as [|c a IH]; simpl; [done|by f_equal]. Qed.

Lemma Join_ne (dir name : string) : Join dir name ≠ dir.
Proof.
  unfold Join. intros Heq.
  apply (f_equal Stdlib.Strings.String.length) in Heq.
  rewrite !string_length_app in Heq. cbn in Heq. lia.
Qed.

Global Instance byName_trans : Transitive byName.
Proof. intros a b c. unfold byName. apply transitivity. Qed.

Global Instance byName_total : Total byName.
Proof. intros a b. unfold byName. apply total, _. Qed.

(** [walk] on an entry of the store directory: the closure keeps the
    visible files and neither descends into nor keeps a directory. *)
Lemma walk_store_entry (f : Fs) (d : nat) (e : FileInfo)
    (konfs : list FileInfo) :
  walk f fetchKonfs_walkFn d (Join StoreDir (Name e)) e konfs
  = Ok (if visible e then konfs ++ [e] else konfs, None).
Proof.
  unfold visible.
  destruct d; cbn; rewrite (bool_decide_eq_false_2 _ (Join_ne _ _));
    destruct (IsDir e) eqn:Hdir; cbn; try done;
    destruct (HasPrefix (Name e) "."); cbn; by rewrite ?Hdir.
Qed.

Lemma walkEntries_store (f : Fs) (d : nat) (entries konfs : list FileInfo) :
  walkEntries (walk f fetchKonfs_walkFn d) StoreDir entries konfs
  = Ok (konfs ++ filter visible entries, None).
Proof.
  revert konfs. induction entries as [|e entries IH]; intros konfs.
  { cbn. by rewrite app_nil_r. }
  rewrite filter_cons. cbn [walkEntries]. rewrite walk_store_entry.
  cbn [mbind res_bind]. rewrite IH.
  destruct (visible e) eqn:Hv.
  - rewrite decide_True by done. by rewrite <-app_assoc.
  - rewrite decide_False by (cbn; tauto). done.
Qed.

(** The walk of a present store: the root first, then its visible files
    in lexical order. *)
Lemma Walk_store (f : Fs) :
  storePresent f →
  Walk f fetchKonfs_walkFn StoreDir []
  = Ok ({| Name := Base StoreDir; IsDir := true |}
          :: filter visible (readDir f StoreDir), None).
Proof.
  intros [Hroot Hhidden]. unfold Walk, lstat. rewrite Hroot. cbn.
  assert (size f ≠ 0%nat) as Hsize.
  { intros ->%map_size_empty_inv. by rewrite lookup_empty in Hroot. }
  destruct (size f) as [|d]; [done|]. cbn -[HasPrefix readDir].
  rewrite bool_decide_eq_true_2 by done. cbn -[HasPrefix readDir].
  rewrite Hhidden. cbn -[HasPrefix readDir].
  by rewrite walkEntries_store.
Qed.

(** [fetchKonfs] on a present store: the loop over the visible files in
    name order, unless there is none. *)
Lemma fetchKonfs_present (f : Fs) :
  storePresent f →
  fetchKonfs f
  = match storeKonfs f with
    | [] => Err EmptyStore
    | _ => fetchKonfs_loop f (storeKonfs f) []
    end.
Proof.
  intros Hstore. unfold fetchKonfs. rewrite (Walk_store _ Hstore).
  cbn [mbind res_bind]. unfold sliceFrom.
  rewrite bool_decide_eq_true_2 by (unfold len; cbn; lia).
  cbn [mbind res_bind]. change (drop (Z.to_nat 1) (?x :: ?l)) with l.
  fold (storeKonfs f).
  destruct (storeKonfs f) as [|k ks]; [done|].
  rewrite bool_decide_eq_false_2 by (unfold len; cbn; lia). done.
Qed.

Lemma storeKonfs_Permutation (f : Fs) :
  storeKonfs f ≡ₚ filter visible (readDir f StoreDir).
Proof. apply merge_sort_Permutation. Qed.

Lemma storeKonfs_sorted (f : Fs) : StronglySorted byName (storeKonfs f).
Proof. apply StronglySorted_merge_sort; apply _. Qed.

Lemma readKonf_Ok (f : Fs) (konf : FileInfo) (doc : option k8s.Config) :
  readKonf f konf = Ok doc →
  ∃ val, f !! konfPath konf = Some (FileNode val) ∧ Unmarshal val = doc.
Proof.
  unfold readKonf, ReadFile, Open.
  destruct (f !! konfPath konf) as [[val|]|]; cbn; [|done..].
  intros [= <-]. eauto.
Qed.

Lemma fetchKonfs_loop_malformed (f : Fs) konf konfs out :
  malformed f konf →
  fetchKonfs_loop f (konf :: konfs) out = fetchKonfs_loop f konfs out.
Proof.
  intros (val & Hval & Hdoc)%readKonf_Ok. cbn. fold (konfPath konf).
  unfold Open. rewrite Hval. cbn. by rewrite Hdoc.
Qed.

Lemma fetchKonfs_loop_indexed (f : Fs) konf konfs out t :
  indexedAs f konf t →
  fetchKonfs_loop f (konf :: konfs) out = fetchKonfs_loop f konfs (out ++ [t]).
Proof.
  intros (context & cluster & (val & Hval & Hdoc)%readKonf_Ok & ->).
  cbn. fold (konfPath konf). unfold Open. rewrite Hval. cbn.
  by rewrite Hdoc.
Qed.

Lemma fetchKonfs_loop_overloaded (f : Fs) konf konfs out :
  overloaded f konf →
  fetchKonfs_loop f (konf :: konfs) out
  = Err (KubeConfigOverload (konfPath konf)).
Proof.
  intros (kubeconf & (val & Hval & Hdoc)%readKonf_Ok & Hmany).
  cbn. fold (konfPath konf). unfold Open. rewrite Hval. cbn. rewrite Hdoc.
  destruct Hmany.
  - by rewrite bool_decide_eq_true_2.
  - rewrite (bool_decide_eq_true_2 (len (k8s.Clusters kubeconf) > 1)) by done.
    by rewrite orb_true_r.
Qed.

(** A parsed document without a context or without a cluster passes the
    check for too many of them and stops the loop with a panic. *)
Lemma fetchKonfs_loop_no_entry (f : Fs) konf konfs out kubeconf :
  readKonf f konf = Ok (Some kubeconf) →
  len (k8s.Contexts kubeconf) ≤ 1 → len (k8s.Clusters kubeconf) ≤ 1 →
  k8s.Contexts kubeconf = [] ∨ k8s.Clusters kubeconf = [] →
  fetchKonfs_loop f (konf :: konfs) out = Panicked (IndexOutOfRange 0 0).
Proof.
  intros (val & Hval & Hdoc)%readKonf_Ok Hctx Hcl Hnone.
  cbn. fold (konfPath konf). unfold Open. rewrite Hval. cbn. rewrite Hdoc.
  rewrite !bool_decide_eq_false_2 by lia. cbn.
  destruct kubeconf as [clusters contexts]; cbn in *.
  destruct Hnone as [-> | ->]; [done|].
  destruct contexts as [|c [|??]]; cbn in *; [done|done|].
  unfold len in Hctx; cbn in Hctx; lia.
Qed.

(** Konfs that are malformed or hold one cluster and one context do not
    stop the loop. *)
Lemma fetchKonfs_loop_prefix (f : Fs) pre out :
  Forall (λ k, malformed f k ∨ ∃ t, indexedAs f k t) pre →
  ∃ out', ∀ rest,
    fetchKonfs_loop f (pre ++ rest) out = fetchKonfs_loop f rest out'.
Proof.
  intros Hpre. revert out.
  induction Hpre as [|k pre [Hk|[t Hk]] _ IH]; intros out.
  - by exists out.
  - destruct (IH out) as [out' Hout']. exists out'. intros rest.
    by rewrite <-app_comm_cons, fetchKonfs_loop_malformed.
  - destruct (IH (out ++ [t])) as [out' Hout']. exists out'. intros rest.
    by rewrite <-app_comm_cons, (fetchKonfs_loop_indexed _ _ _ _ t).
Qed.

Lemma fetchKonfs_loop_all_indexed (f : Fs) konfs ts out :
  Forall2 (indexedAs f) konfs ts →
  fetchKonfs_loop f konfs out = Ok (out ++ ts).
Proof.
  intros Hall. revert out.
  induction Hall as [|k t konfs ts Hk _ IH]; intros out.
  - by rewrite app_nil_r.
  - rewrite (fetchKonfs_loop_indexed _ _ _ _ t), IH by done.
    by rewrite <-app_assoc.
Qed.

Lemma fetchKonfs_loop_all_malformed (f : Fs) konfs out :
  Forall (malformed f) konfs → fetchKonfs_loop f konfs out = Ok out.
Proof.
  induction 1 as [|k konfs Hk _ IH]; [done|].
  by rewrite fetchKonfs_loop_malformed.
Qed.

(** C1, as the code has it: on a present store, when a visible file holds
    a document with more than one cluster or context and every visible
    file before it in name order is malformed or holds one cluster and one
    context, [fetchKonfs] returns no entries and a [KubeConfigOverload]
    error with the path of that file, whatever files follow it. *)
Theorem fetchKonfs_first_overloaded (f : Fs) (pre post : list FileInfo)
    (konf : FileInfo) :
  storePresent f →
  storeKonfs f = pre ++ konf :: post →
  Forall (λ k, malformed f k ∨ ∃ t, indexedAs f k t) pre →
  overloaded f konf →
  fetchKonfs f = Err (KubeConfigOverload (konfPath konf)).
Proof.
  intros Hstore Hks Hpre Hover.
  rewrite (fetchKonfs_present _ Hstore), Hks.
  destruct (fetchKonfs_loop_prefix f pre [] Hpre) as [out' ->].
  destruct pre; by rewrite fetchKonfs_loop_overloaded.
Qed.

(** C2, what the code does instead: on a present store whose visible
    files are all malformed, with at least one of them, [fetchKonfs]
    returns an empty list and no error. *)
Theorem fetchKonfs_all_malformed (f : Fs) :
  storePresent f →
  storeKonfs f ≠ [] →
  Forall (malformed f) (storeKonfs f) →
  fetchKonfs f = Ok [].
Proof.
  intros Hstore Hne Hall. rewrite (fetchKonfs_present _ Hstore).
  rewrite fetchKonfs_loop_all_malformed by done.
  by destruct (storeKonfs f).
Qed.

(** C8, as the code has it: on a present store whose visible files,
    each read under the store path derived from its name
    ([StorePathForID (IDFromFileInfo konf)]), all hold one cluster and
    one context, [fetchKonfs] returns one entry per visible file, in the
    ascending name order of the files ([EmptyStore] when there is none);
    directories and hidden files do not count, and when the store has
    neither, the number of entries is the number of files. *)
Theorem fetchKonfs_valid_store (f : Fs) :
  storePresent f →
  (∀ konf, konf ∈ readDir f StoreDir → visible konf →
           ∃ t, indexedAs f konf t) →
  ∃ out,
    fetchKonfs f
      = match storeKonfs f with [] => Err EmptyStore | _ => Ok out end ∧
    Forall2 (indexedAs f) (storeKonfs f) out ∧
    StronglySorted byName (storeKonfs f) ∧
    storeKonfs f ≡ₚ filter visible (readDir f StoreDir) ∧
    length out = length (filter visible (readDir f StoreDir)) ∧
    (Forall visible (readDir f StoreDir) →
     length out = length (readDir f StoreDir)).
Proof.
  intros Hstore Hvalid.
  assert (Forall (λ k, ∃ t, indexedAs f k t) (storeKonfs f)) as Hall.
  { apply Forall_forall. intros k Hk.
    rewrite storeKonfs_Permutation in Hk.
    apply list_elem_of_filter in Hk as [Hv Hk]. by apply Hvalid. }
  apply Forall_exists_Forall2_l in Hall as [out Hout].
  assert (length out = length (filter visible (readDir f StoreDir))) as Hlen.
  { rewrite <-(Forall2_length _ _ _ Hout).
    by rewrite storeKonfs_Permutation. }
  exists out. split_and!;
    [|done|apply storeKonfs_sorted|apply storeKonfs_Permutation|done|].
  - rewrite (fetchKonfs_present _ Hstore).
    rewrite (fetchKonfs_loop_all_indexed _ _ out) by done.
    by destruct (storeKonfs f).
  - intros Hvis. rewrite Hlen. f_equal. clear -Hvis.
    induction Hvis as [|k ks Hk _ IH]; [done|].
    rewrite filter_cons, decide_True by done. by f_equal.
Qed.

(** C10, what the code does instead: on a present store, when a visible
    file parses to a document with at most one context and at most one
    cluster but without a context or without a cluster, and the visible
    files before it are malformed or hold one of each, [fetchKonfs]
    panics on the access to the first context or cluster. *)
Theorem fetchKonfs_no_entry_panics (f : Fs) (pre post : list FileInfo)
    (konf : FileInfo) (kubeconf : k8s.Config) :
  storePresent f →
  storeKonfs f = pre ++ konf :: post →
  Forall (λ k, malformed f k ∨ ∃ t, indexedAs f k t) pre →
  readKonf f konf = Ok (Some kubeconf) →
  len (k8s.Contexts kubeconf) ≤ 1 → len (k8s.Clusters kubeconf) ≤ 1 →
  k8s.Contexts kubeconf = [] ∨ k8s.Clusters kubeconf = [] →
  fetchKonfs f = Panicked (IndexOutOfRange 0 0).
Proof.
  intros Hstore Hks Hpre Hread Hctx Hcl Hnone.
  rewrite (fetchKonfs_present _ Hstore), Hks.
  destruct (fetchKonfs_loop_prefix f pre [] Hpre) as [out' ->].
  destruct pre; by rewrite (fetchKonfs_loop_no_entry _ _ _ _ kubeconf).
Qed.

End store.

(** *** The picker *)

Section picker.
Context {D : Deps}.

(** The check of the selected position, for positions from 0 on: the
    position is rejected exactly when it is not below the number of
    entries, and otherwise names the entry that is returned. *)
Lemma selectContext_checked (f : Fs) (pf : promptFunc)
    (k : list tableOutput) (selPos : Z) :
  fetchKonfs f = Ok k →
  pf (createPrompt k) = (selPos, None) →
  0 ≤ selPos →
  (len k ≤ selPos ∧
   selectContext f pf = Err (Errorf "invalid selection %d" [ArgInt selPos])) ∨
  (selPos < len k ∧ ∃ sel,
     k !! Z.to_nat selPos = Some sel ∧
     selectContext f pf
     = Ok (IDFromClusterAndContext (Cluster sel) (Context sel))).
Proof.
  intros Hk Hpf Hpos. unfold selectContext. rewrite Hk. cbn. rewrite Hpf.
  case_bool_decide as Hge; [left; split; [lia|done]|right].
  split; [lia|]. unfold index. rewrite bool_decide_eq_true_2 by lia.
  destruct (k !! Z.to_nat selPos) as [sel|] eqn:Hsel.
  - by exists sel.
  - apply lookup_ge_None in Hsel. unfold len in Hge. lia.
Qed.

(** C4, what the code does instead: a position below 0 passes the check
    and the access [k[selPos]] panics. *)
Theorem selectContext_negative (f : Fs) (pf : promptFunc)
    (k : list tableOutput) (selPos : Z) :
  fetchKonfs f = Ok k →
  pf (createPrompt k) = (selPos, None) →
  selPos < 0 →
  selectContext f pf = Panicked (IndexOutOfRange selPos (len k)).
Proof.
  intros Hk Hpf Hneg. unfold selectContext. rewrite Hk. cbn. rewrite Hpf.
  rewrite bool_decide_eq_false_2 by (unfold len; lia).
  unfold index. by rewrite bool_decide_eq_false_2 by lia.
Qed.

End picker.

(** *** Runes and the fuzzy matcher *)

Section utf8.

Ltac pow2 :=
  change (2 ^ 3) with 8 in *; change (2 ^ 4) with 16 in *;
  change (2 ^ 5) with 32 in *; change (2 ^ 6) with 64 in *;
  change (2 ^ 12) with 4096 in *; change (2 ^ 18) with 262144 in *.

Ltac mod_lia := Z.div_mod_to_equations; lia.

Lemma lor_disjoint (a b n : Z) :
  0 ≤ n → a `mod` 2 ^ n = 0 → 0 ≤ b < 2 ^ n → Z.lor a b = a + b.
Proof.
  intros Hn Ha Hb. rewrite <-(Z.add_lor_land a b).
  assert (Z.land a b = 0) as ->; [|lia].
  assert (b = Z.land (Z.ones n) b) as ->.
  { by rewrite Z.land_comm, Z.land_ones, Z.mod_small. }
  by rewrite Z.land_assoc, Z.land_ones, Ha.
Qed.

Lemma land_mask (a n : Z) : 0 ≤ n → Z.land a (Z.ones n) = a `mod` 2 ^ n.
Proof. apply Z.land_ones. Qed.

(** The leading bytes that [first] gives a sequence for, with the sizes
    and accepted ranges. *)
Lemma first_lead (s0 sz lo hi : Z) :
  first s0 = firstLead sz lo hi →
  0x80 ≤ lo ∧ hi ≤ 0xBF ∧
  ((sz = 2 ∧ 0xC2 ≤ s0 ≤ 0xDF) ∨
   (sz = 3 ∧ 0xE0 ≤ s0 ≤ 0xEF ∧
    (s0 = 0xE0 → 0xA0 ≤ lo) ∧ (s0 = 0xED → hi ≤ 0x9F)) ∨
   (sz = 4 ∧ 0xF0 ≤ s0 ≤ 0xF4 ∧
    (s0 = 0xF0 → 0x90 ≤ lo) ∧ (s0 = 0xF4 → hi ≤ 0x8F))).
Proof.
  unfold first. repeat case_bool_decide; intros; simplify_eq; lia.
Qed.

Lemma RuneLen_2 (s0 s1 : Z) :
  0xC2 ≤ s0 ≤ 0xDF → 0x80 ≤ s1 ≤ 0xBF →
  RuneLen (Z.lor (Z.shiftl (Z.land s0 0x1F) 6) (Z.land s1 0x3F)) = 2.
Proof.
  intros H0 H1.
  change 0x1F with (Z.ones 5). change 0x3F with (Z.ones 6).
  rewrite !land_mask, Z.shiftl_mul_pow2 by lia.
  rewrite (lor_disjoint _ _ 6); [|lia|pow2; mod_lia..].
  unfold RuneLen. pow2. repeat case_bool_decide; cbn; mod_lia.
Qed.

Lemma RuneLen_3 (s0 s1 s2 : Z) :
  0xE0 ≤ s0 ≤ 0xEF → 0x80 ≤ s1 ≤ 0xBF → 0x80 ≤ s2 ≤ 0xBF →
  (s0 = 0xE0 → 0xA0 ≤ s1) → (s0 = 0xED → s1 ≤ 0x9F) →
  RuneLen (Z.lor (Z.lor (Z.shiftl (Z.land s0 0x0F) 12)
                        (Z.shiftl (Z.land s1 0x3F) 6))
                 (Z.land s2 0x3F)) = 3.
Proof.
  intros H0 H1 H2 HE0 HED.
  change 0x0F with (Z.ones 4). change 0x3F with (Z.ones 6).
  rewrite !land_mask, !Z.shiftl_mul_pow2 by lia.
  rewrite (lor_disjoint (_ * 2 ^ 12) _ 12); [|lia|pow2; mod_lia..].
  rewrite (lor_disjoint _ _ 6); [|lia|pow2; mod_lia..].
  unfold RuneLen. pow2. repeat case_bool_decide; cbn; mod_lia.
Qed.

Lemma RuneLen_4 (s0 s1 s2 s3 : Z) :
  0xF0 ≤ s0 ≤ 0xF4 → 0x80 ≤ s1 ≤ 0xBF → 0x80 ≤ s2 ≤ 0xBF →
  0x80 ≤ s3 ≤ 0xBF →
  (s0 = 0xF0 → 0x90 ≤ s1) → (s0 = 0xF4 → s1 ≤ 0x8F) →
  RuneLen (Z.lor (Z.lor (Z.lor (Z.shiftl (Z.land s0 0x07) 18)
                               (Z.shiftl (Z.land s1 0x3F) 12))
                        (Z.shiftl (Z.land s2 0x3F) 6))
                 (Z.land s3 0x3F)) = 4.
Proof.
  intros H0 H1 H2 H3 HF0 HF4.
  change 0x07 with (Z.ones 3). change 0x3F with (Z.ones 6).
  rewrite !land_mask, !Z.shiftl_mul_pow2 by lia.
  rewrite (lor_disjoint (_ * 2 ^ 18) _ 18); [|lia|pow2; mod_lia..].
  rewrite (lor_disjoint _ (_ * 2 ^ 6) 12); [|lia|pow2; mod_lia..].
  rewrite (lor_disjoint _ _ 6); [|lia|pow2; mod_lia..].
  unfold RuneLen. pow2. repeat case_bool_decide; cbn; mod_lia.
Qed.

(** [DecodeRune] reads at least one byte and no more than there are. *)
Lemma DecodeRune_width (s : list Z) :
  s ≠ [] → 1 ≤ (DecodeRune s).2 ≤ len s.
Proof.
  destruct s as [|s0 s']; [done|]. intros _.
  assert (1 ≤ len (s0 :: s')) by (unfold len; cbn; lia).
  unfold DecodeRune. destruct (first s0) as [| |sz lo hi] eqn:Hfirst;
    [cbn; lia..|].
  apply first_lead in Hfirst.
  repeat (case_bool_decide; cbn [orb negb snd]); cbn [snd]; lia.
Qed.

(** A rune is never read from more bytes than its encoding has: either
    it was read from its own encoding, or it is [RuneError] for a single
    byte. *)
Lemma DecodeRune_RuneLen (s : list Z) :
  Forall (λ b, 0 ≤ b) s → s ≠ [] →
  (DecodeRune s).2 ≤ RuneLen (DecodeRune s).1.
Proof.
  destruct s as [|s0 s']; [done|]. intros Hbytes _.
  apply Forall_cons in Hbytes as [Hs0 _].
  unfold DecodeRune. destruct (first s0) as [| |sz lo hi] eqn:Hfirst.
  - cbn. unfold first in Hfirst. case_bool_decide; [|by repeat case_match].
    unfold RuneLen. repeat case_bool_decide; cbn; lia.
  - done.
  - apply first_lead in Hfirst as (Hlo & Hhi & Hsz).
    repeat (case_bool_decide; cbn [orb negb snd fst]); try done.
    + rewrite RuneLen_2; [done|lia..].
    + rewrite RuneLen_3; [done|lia..].
    + rewrite RuneLen_4; [done|lia..].
Qed.

Lemma decodeRunes_fuel (n m : nat) (s : list Z) :
  (length s ≤ n)%nat → (length s ≤ m)%nat →
  decodeRunes n s = decodeRunes m s.
Proof.
  revert m s. induction n as [|n IH]; intros m s Hn Hm.
  { destruct s; [|cbn in Hn; lia]. by destruct m. }
  destruct s as [|s0 s']; [by destruct m|].
  destruct m as [|m]; [cbn in Hm; lia|].
  cbn [decodeRunes]. f_equal.
  pose proof (DecodeRune_width (s0 :: s') ltac:(done)) as Hw.
  apply IH; rewrite length_drop; cbn [length] in *; lia.
Qed.

Lemma decode_nil : decode [] = [].
Proof. done. Qed.

Lemma decode_cons (s : list Z) :
  s ≠ [] →
  decode s = DecodeRune s :: decode (drop (Z.to_nat (DecodeRune s).2) s).
Proof.
  intros Hs. unfold decode at 1.
  destruct s as [|s0 s']; [done|]. cbn [length decodeRunes]. f_equal.
  pose proof (DecodeRune_width (s0 :: s') ltac:(done)) as Hw.
  apply decodeRunes_fuel; rewrite ?length_drop; cbn [length]; lia.
Qed.

Lemma widths_app (l1 l2 : list (Z * Z)) :
  widths (l1 ++ l2) = widths l1 + widths l2.
Proof. induction l1 as [|rw l1 IH]; cbn; lia. Qed.

(** Induction along the decoding of a string. *)
Lemma decode_ind (P : list Z → Prop) :
  P [] →
  (∀ s, s ≠ [] → P (drop (Z.to_nat (DecodeRune s).2) s) → P s) →
  ∀ s, P s.
Proof.
  intros Hnil Hcons s.
  remember (length s) as n eqn:Hn. revert s Hn.
  induction n as [n IH] using lt_wf_ind. intros s ->.
  destruct (decide (s = [])) as [->|Hs]; [done|].
  apply Hcons; [done|]. eapply IH; [|done].
  pose proof (DecodeRune_width s Hs) as Hw.
  rewrite length_drop. destruct s; [done|]. cbn [length]. lia.
Qed.

(** The runes of a string are read from all of its bytes. *)
Lemma widths_decode (s : list Z) : widths (decode s) = len s.
Proof.
  induction s as [|s Hs IH] using decode_ind; [done|].
  rewrite decode_cons by done. cbn [widths]. rewrite IH.
  pose proof (DecodeRune_width s Hs) as Hw.
  unfold len in *. rewrite length_drop. lia.
Qed.

Lemma decode_widths_pos (s : list Z) : Forall (λ rw, 1 ≤ rw.2) (decode s).
Proof.
  induction s as [|s Hs IH] using decode_ind; [by constructor|].
  rewrite decode_cons by done. constructor; [|done].
  by apply DecodeRune_width.
Qed.

Lemma widths_nonneg (l : list (Z * Z)) :
  Forall (λ rw, 1 ≤ rw.2) l → 0 ≤ widths l.
Proof. induction 1; cbn; lia. Qed.

(** Slicing a string after one of its runes leaves the runes that
    follow. *)
Lemma decode_drop (s : list Z) (l1 l2 : list (Z * Z)) (r w : Z) :
  decode s = l1 ++ (r, w) :: l2 →
  decode (drop (Z.to_nat (widths l1 + w)) s) = l2.
Proof.
  revert s. induction l1 as [|[r0 w0] l1 IH]; intros s Hs.
  - destruct (decide (s = [])) as [->|Hne]; [done|].
    rewrite decode_cons in Hs by done. cbn in Hs.
    injection Hs as Hrw <-. rewrite Hrw. cbn. done.
  - destruct (decide (s = [])) as [->|Hne]; [done|].
    pose proof (decode_widths_pos s) as Hpos. rewrite Hs in Hpos.
    rewrite decode_cons in Hs by done. cbn in Hs.
    injection Hs as Hrw Hs. specialize (IH _ Hs).
    apply Forall_cons in Hpos as [Hw0 Hpos]. cbn in Hw0.
    apply Forall_app in Hpos as [Hpos1 Hpos2].
    apply Forall_cons in Hpos2 as [Hw _]. cbn in Hw.
    pose proof (widths_nonneg _ Hpos1).
    rewrite drop_drop in IH. rewrite Hrw in IH. cbn [snd widths] in *.
    rewrite <-IH.
    by replace (Z.to_nat (w0 + widths l1 + w))
      with (Z.to_nat w0 + Z.to_nat (widths l1 + w))%nat by lia.
Qed.

Lemma runes_decode (s : list Z) : runes s = (decode s).*1.
Proof.
  unfold runes, rangeString. generalize 0.
  induction (decode s) as [|[r w] l IH]; intros i; cbn; [done|].
  by rewrite IH.
Qed.

Lemma ValidString_Forall (s : list Z) :
  ValidString s ↔ Forall (λ rw, RuneLen rw.1 = rw.2) (decode s).
Proof.
  unfold ValidString. rewrite Is_true_true, forallb_forall, Forall_forall.
  split; intros Hall rw Hrw.
  - apply (bool_decide_eq_true_1 _), Hall. by apply list_elem_of_In.
  - apply (bool_decide_eq_true_2 _), Hall. by apply list_elem_of_In.
Qed.

Lemma decode_RuneLen (s : list Z) :
  Forall (λ b, 0 ≤ b) s → Forall (λ rw, rw.2 ≤ RuneLen rw.1) (decode s).
Proof.
  induction s as [|s Hs IH] using decode_ind; [by constructor|].
  intros Hbytes. rewrite decode_cons by done. constructor.
  - by apply DecodeRune_RuneLen.
  - by apply IH, Forall_drop.
Qed.

Lemma runeLens_ge_widths (l : list (Z * Z)) :
  Forall (λ rw, rw.2 ≤ RuneLen rw.1) l → widths l ≤ runeLens l.*1.
Proof. induction 1; cbn; lia. Qed.

Lemma runeLens_eq_widths (l : list (Z * Z)) :
  Forall (λ rw, RuneLen rw.1 = rw.2) l → runeLens l.*1 = widths l.
Proof. induction 1; cbn; lia. Qed.

Lemma runeLens_sublist (l1 l2 : list Z) :
  l1 `sublist_of` l2 → Forall (λ r, 0 ≤ RuneLen r) l2 →
  runeLens l1 ≤ runeLens l2.
Proof.
  induction 1 as [|r l1 l2 _ IH|r l1 l2 _ IH]; intros Hpos; [done|..];
    apply Forall_cons in Hpos as [Hr Hpos]; cbn; specialize (IH Hpos); lia.
Qed.

(** A string in which the runes of [source] occur in order has at least
    as many bytes as [source], when it is valid UTF-8. *)
Lemma sublist_runes_len (source target : list Z) :
  Forall (λ b, 0 ≤ b) source → ValidString target →
  runes source `sublist_of` runes target → len source ≤ len target.
Proof.
  intros Hbytes Hvalid%ValidString_Forall Hsub.
  rewrite <-(widths_decode source), <-(widths_decode target).
  rewrite <-(runeLens_eq_widths (decode target)) by done.
  etrans; [apply runeLens_ge_widths, decode_RuneLen, Hbytes|].
  rewrite <-!runes_decode. apply runeLens_sublist; [done|].
  rewrite runes_decode. apply Forall_fmap.
  pose proof (decode_widths_pos target) as Hpos.
  rewrite Forall_forall in Hvalid, Hpos. apply Forall_forall.
  intros rw Hrw. cbn. rewrite (Hvalid _ Hrw).
  specialize (Hpos _ Hrw). cbn in Hpos. lia.
Qed.

(** The first pair of [range] with a given rune. *)
Lemma find_withOffsets (r1 : Z) (l : list (Z * Z)) (i0 : Z) :
  match List.find (λ ir, bool_decide (r1 = ir.2)) (withOffsets i0 l) with
  | Some (i, r2) =>
      ∃ l1 w l2, l = l1 ++ (r1, w) :: l2 ∧ r2 = r1 ∧ (r1 ∉ l1.*1) ∧
                 i = i0 + widths l1
  | None => r1 ∉ (l.*1)
  end.
Proof.
  revert i0. induction l as [|[r w] l IH]; intros i0; cbn.
  { apply not_elem_of_nil. }
  case_bool_decide as Hr.
  - subst r. exists [], w, l. split_and!; [done|done|apply not_elem_of_nil|].
    cbn. lia.
  - specialize (IH (i0 + w)).
    destruct (List.find _ _) as [[i r2]|].
    + destruct IH as (l1 & w' & l2 & -> & -> & Hnotin & ->).
      exists ((r, w) :: l1), w', l2. split_and!; [done|done| |cbn; lia].
      cbn. by apply not_elem_of_cons.
    + cbn. by apply not_elem_of_cons.
Qed.

(** Matching the first rune at its first occurrence loses nothing. *)
Lemma sublist_first_occurrence (r : Z) (l k1 k2 : list Z) :
  r ∉ k1 → (r :: l) `sublist_of` (k1 ++ r :: k2) ↔ l `sublist_of` k2.
Proof.
  intros Hnotin. split.
  - induction k1 as [|x k1 IH]; cbn.
    + intros [Hsub|(l' & [= <-] & Hsub)]%sublist_cons_r; [|done].
      etrans; [|done]. by apply sublist_cons.
    + apply not_elem_of_cons in Hnotin as [Hne Hnotin].
      intros [Hsub|(l' & [= <-] & Hsub)]%sublist_cons_r; [|done].
      by apply IH.
  - intros Hsub. apply sublist_inserts_l. by apply sublist_skip.
Qed.

(** The loop of [match] on a valid UTF-8 target: it finds the runes of
    [source] in order, or none of the ways to find them exists. *)
Lemma matchOuter_sublist (source target : list Z) :
  ValidString target →
  ∃ b : bool, matchOuter source target = Ok b ∧
              (b = true ↔ source `sublist_of` runes target).
Proof.
  revert target. induction source as [|r1 source IH]; intros target Hvalid.
  { exists true. split; [done|]. split; [intros _; apply sublist_nil_l|done]. }
  cbn [matchOuter]. unfold rangeString.
  pose proof (find_withOffsets r1 (decode target) 0) as Hfind.
  destruct (List.find _ _) as [[i r2]|].
  - destruct Hfind as (l1 & w & l2 & Hdec & -> & Hnotin & ->).
    pose proof Hvalid as Hall%ValidString_Forall.
    pose proof (decode_widths_pos target) as Hpos.
    pose proof (widths_decode target) as Hlen.
    rewrite Hdec in Hall, Hpos, Hlen.
    apply Forall_app in Hall as [_ [Hw Hall]%Forall_cons].
    apply Forall_app in Hpos as [Hpos1%widths_nonneg Hpos2].
    apply Forall_cons in Hpos2 as [Hwpos Hpos2%widths_nonneg].
    rewrite widths_app in Hlen. cbn in Hw, Hwpos, Hlen.
    unfold sliceFrom. rewrite bool_decide_eq_true_2 by lia.
    cbn [mbind res_bind]. rewrite Hw, Z.add_0_l.
    pose proof (decode_drop _ _ _ _ _ Hdec) as Hdrop.
    destruct (IH (drop (Z.to_nat (widths l1 + w)) target)) as (b & -> & Hb).
    { by apply ValidString_Forall; rewrite Hdrop. }
    exists b. split; [done|]. rewrite Hb.
    rewrite !runes_decode, Hdrop, Hdec, fmap_app, fmap_cons. cbn [fst].
    symmetry. apply sublist_first_occurrence.
    intros Hin. apply Hnotin. done.
  - exists false. split; [done|]. split; [done|].
    intros Hsub. destruct Hfind. rewrite <-runes_decode.
    eapply elem_of_sublist; [|done]. by left.
Qed.

Lemma bytes_nonneg (s : string) : Forall (λ b, 0 ≤ b) (bytes s).
Proof. induction s; constructor; [lia|done]. Qed.

(** [fuzzy.Match] on a valid UTF-8 target: the runes of [source] occur in
    [target] in order. *)
Lemma Match_sublist (source target : string) :
  ValidString (bytes target) →
  ∃ b : bool, Match source target = Ok b ∧
    (b = true ↔ runes (bytes source) `sublist_of` runes (bytes target)).
Proof.
  intros Hvalid. unfold Match.
  case_bool_decide as Hlen.
  { exists false. split; [done|]. split; [done|]. intros Hsub.
    apply sublist_runes_len in Hsub; [lia|apply bytes_nonneg|done]. }
  destruct (bool_decide (_ = 0) && _) eqn:Hsame.
  { apply andb_true_iff in Hsame as [_ ->%bool_decide_eq_true].
    by exists true. }
  by apply matchOuter_sublist.
Qed.

(** C3, as the code has it: for an entry whose search surface is valid
    UTF-8, [searchKonf] returns true if and only if the runes of the
    search term occur in order, not necessarily next to each other, in
    "Context Cluster File", compared rune by rune (case-sensitively). *)
Theorem searchKonf_subsequence (searchTerm : string)
    (curItem : tableOutput) :
  ValidString (bytes (searchSurface curItem)) →
  ∃ b : bool, searchKonf searchTerm curItem = Ok b ∧
              (b = true ↔ matchesExact searchTerm curItem).
Proof. intros Hvalid. by apply Match_sublist. Qed.

End utf8.

(** *** The [set] command *)

Section set_command.
Context {D : Deps}.

Lemma WriteFile_lookup_ne (f f' : Fs) (path path' data : string) e :
  WriteFile f path data = (f', e) → path ≠ path' → f' !! path' = f !! path'.
Proof.
  intros [[-> _]|(-> & _)]%WriteFile_cases Hne; [done|].
  by rewrite lookup_insert_ne.
Qed.

Lemma WriteFile_succeeds (f : Fs) (path data : string) :
  f !! Dir path = Some DirNode →
  f !! path ≠ Some DirNode →
  WriteFile f path data = (<[path := FileNode data]> f, None).
Proof.
  unfold WriteFile. intros ->. by destruct (f !! path) as [[data0|]|].
Qed.

Lemma WriteFile_same (f : Fs) (path data : string) :
  f !! Dir path = Some DirNode →
  f !! path = Some (FileNode data) → WriteFile f path data = (f, None).
Proof.
  intros Hdir Hpath. rewrite WriteFile_succeeds by by rewrite ?Hpath.
  by rewrite insert_id.
Qed.

(** Two writes in a row, as [set] makes them, succeed when both
    directories exist and neither path is a directory. *)
Lemma WriteFile_twice (f : Fs) (path path' data data' : string) :
  f !! Dir path = Some DirNode → f !! path ≠ Some DirNode →
  f !! Dir path' = Some DirNode → f !! path' ≠ Some DirNode →
  WriteFile f path data = (<[path := FileNode data]> f, None) ∧
  WriteFile (<[path := FileNode data]> f) path' data'
  = (<[path' := FileNode data']> (<[path := FileNode data]> f), None).
Proof.
  intros Hdir Hpath Hdir' Hpath'.
  split; [by apply WriteFile_succeeds|]. apply WriteFile_succeeds.
  - destruct (decide (path = Dir path')) as [->|Hne]; [done|].
    by rewrite lookup_insert_ne.
  - destruct (decide (path = path')) as [<-|Hne].
    + by rewrite lookup_insert_eq.
    + by rewrite lookup_insert_ne.
Qed.

Lemma ReadFile_lookup (f : Fs) (path data : string) :
  ReadFile f path = Ok data ↔ f !! path = Some (FileNode data).
Proof.
  unfold ReadFile, Open. destruct (f !! path) as [[data0|]|]; cbn;
    split; intros; by simplify_eq.
Qed.

(** [setContext] changes at most the active path, and nothing when it
    fails. *)
Lemma setContext_frame (id : string) (f f' : Fs) (r : res string) :
  setContext id f = (f', r) →
  (∀ path, path ≠ activePath → f' !! path = f !! path) ∧
  (r = Ok activePath ∨ (f' = f ∧ ∀ context, r ≠ Ok context)).
Proof.
  unfold setContext, activePath.
  destruct (ReadFile f (StorePathForID id)) as [konf|e|p];
    [|intros [= <- <-]; split; [done|by right]..].
  destruct (WriteFile _ _ _) as [f1 [e|]] eqn:Hw; intros [= <- <-].
  - split; [|right; split; [by eapply WriteFile_failed|done]].
    intros path Hne. by eapply WriteFile_lookup_ne.
  - split; [|by left].
    intros path Hne. by eapply WriteFile_lookup_ne.
Qed.

(** X1: a successful [set] of an identifier.  When the store file of
    [id] holds [konf], the directory of the active path and the
    directory of the latest-konf path exist, and neither of the two
    paths is itself a directory, [set] writes [konf] to the active path,
    then [id] to the latest-konf path, touches nothing else, prints the
    one line for the shell hook and returns nil. *)
Theorem set_succeeds (f : Fs) (id konf : string) :
  id ≠ "-" →
  f !! StorePathForID id = Some (FileNode konf) →
  f !! Dir activePath = Some DirNode →
  f !! Dir LatestKonfFile = Some DirNode →
  f !! activePath ≠ Some DirNode →
  f !! LatestKonfFile ≠ Some DirNode →
  set f [id]
  = (<[LatestKonfFile := FileNode id]> (<[activePath := FileNode konf]> f),
     [signal], Ok ()).
Proof.
  intros Hid Hstore Hadir Hldir Hactive Hlatest.
  unfold set, setContext, saveLatestKonf.
  rewrite bool_decide_eq_false_2 by done.
  rewrite (proj2 (ReadFile_lookup _ _ _) Hstore). fold activePath.
  destruct (WriteFile_twice f activePath LatestKonfFile konf id)
    as [-> ->]; done.
Qed.

(** X2: [set] prints the line for the shell hook exactly when it returns
    nil, and it never prints anything else. *)
Theorem set_signal (f f' : Fs) (args out : list string) (r : res ()) :
  set f args = (f', out, r) →
  (r = Ok () ∧ out = [signal]) ∨ (r ≠ Ok () ∧ out = []).
Proof.
  unfold set.
  destruct (match args with [] => _ | _ => _ end) as [id|e|p];
    [|intros [= <- <- <-]; by right..].
  destruct (setContext id f) as [f1 [context|e|p]] eqn:Hset;
    [|intros [= <- <- <-]; by right..].
  apply setContext_frame in Hset as [_ [[= ->]|[_ Hne]]];
    [|by destruct (Hne context)].
  destruct (saveLatestKonf f1 id) as [f2 [e|]]; intros [= <- <- <-].
  - by right.
  - by left.
Qed.

(** What [set] leaves behind: the filesystem as it was, or with the
    active konf written, or with the active konf and the latest konf
    written. *)
Lemma set_writes (f f' : Fs) (args out : list string) (r : res ()) :
  set f args = (f', out, r) →
  (f' = f ∧ r ≠ Ok ()) ∨
  (∃ id konf err,
     f !! StorePathForID id = Some (FileNode konf) ∧
     f' = <[activePath := FileNode konf]> f ∧
     saveLatestKonf f' id = (f', Some err) ∧
     r = Err (Errorf
       "could not save latest konf. As a result 'konf set -' might not work: %q "
       [ArgError err])) ∨
  (∃ id konf,
     f !! StorePathForID id = Some (FileNode konf) ∧
     f' = <[LatestKonfFile := FileNode id]>
            (<[activePath := FileNode konf]> f) ∧
     r = Ok ()).
Proof.
  unfold set.
  destruct (match args with [] => _ | _ => _ end) as [id|e|p];
    [|intros [= <- <- <-]; by left..].
  unfold setContext. fold activePath.
  destruct (ReadFile f (StorePathForID id)) as [konf|e|p] eqn:Hread;
    [|intros [= <- <- <-]; by left..].
  apply ReadFile_lookup in Hread.
  destruct (WriteFile f activePath konf) as [f1 [e|]] eqn:Hw1.
  { intros [= <- <- <-]. left. split; [by eapply WriteFile_failed|done]. }
  apply WriteFile_cases in Hw1 as [[_ [err [=]]]|(-> & _)].
  destruct (saveLatestKonf _ id) as [f2 [e|]] eqn:Hw2; intros [= <- <- <-].
  - right; left. exists id, konf, e.
    pose proof (WriteFile_failed _ _ _ _ _ Hw2) as ->. done.
  - right; right. exists id, konf. split_and!; [done| |done].
    by apply WriteFile_cases in Hw2 as [[_ [err [=]]]|(-> & _)].
Qed.

(** X3: whatever its arguments and its outcome, [set] creates, changes
    and removes no regular file other than the active path and the
    latest-konf path, and it removes no directory: the konfs of the store
    stay as they were. *)
Theorem set_frame (f f' : Fs) (args out : list string) (r : res ())
    (path : string) :
  set f args = (f', out, r) →
  path ≠ activePath → path ≠ LatestKonfFile →
  (∀ data,
     f' !! path = Some (FileNode data) ↔ f !! path = Some (FileNode data)) ∧
  (f !! path = Some DirNode → f' !! path = Some DirNode).
Proof.
  intros Hset Hactive Hlatest.
  assert (f' !! path = f !! path) as ->; [|done].
  destruct (set_writes _ _ _ _ _ Hset)
    as [[-> _]|[(id & konf & err & _ & -> & _)|(id & konf & _ & -> & _)]];
    by rewrite ?lookup_insert_ne.
Qed.

(** X4: repeating the last selection.  After a successful [set] of an
    identifier whose store path is not the latest-konf path, and with an
    active path that is not the latest-konf path either, [set -] prints
    the same line, returns nil and leaves the filesystem as it is. *)
Theorem set_last_repeats (f f' : Fs) (id : string) (out : list string) :
  id ≠ "-" →
  StorePathForID id ≠ LatestKonfFile →
  activePath ≠ LatestKonfFile →
  set f [id] = (f', out, Ok ()) →
  set f' ["-"] = (f', out, Ok ()).
Proof.
  intros Hid Hstore Hactive. unfold set at 1.
  rewrite bool_decide_eq_false_2 by done.
  unfold setContext. fold activePath.
  destruct (ReadFile f (StorePathForID id)) as [konf|e|p] eqn:Hread;
    [|done..].
  destruct (WriteFile f activePath konf) as [f1 [e|]] eqn:Hw1; [done|].
  destruct (saveLatestKonf f1 id) as [f2 [e|]] eqn:Hw2; [done|].
  intros [= <- <-]. unfold saveLatestKonf in Hw2.
  assert (f2 !! LatestKonfFile = Some (FileNode id)) as Hlatest.
  { by eapply ReadFile_lookup, ReadFile_WriteFile. }
  assert (f2 !! activePath = Some (FileNode konf)) as Hact.
  { rewrite (WriteFile_lookup_ne _ _ _ _ _ _ Hw2) by done.
    by eapply ReadFile_lookup, ReadFile_WriteFile. }
  assert (f2 !! StorePathForID id = Some (FileNode konf)) as Hst.
  { rewrite (WriteFile_lookup_ne _ _ _ _ _ _ Hw2) by done.
    destruct (decide (activePath = StorePathForID id)) as [<-|Hne].
    - by eapply ReadFile_lookup, ReadFile_WriteFile.
    - rewrite (WriteFile_lookup_ne _ _ _ _ _ _ Hw1) by done.
      by apply ReadFile_lookup. }
  assert (f2 !! Dir LatestKonfFile = Some DirNode) as Hldir.
  { apply WriteFile_cases in Hw2
      as [[_ [err [=]]]|(-> & _ & Hdir & Hpath)].
    destruct (decide (LatestKonfFile = Dir LatestKonfFile)) as [Heq|Hne].
    - by rewrite <-Heq in Hdir.
    - by rewrite lookup_insert_ne. }
  assert (f2 !! Dir activePath = Some DirNode) as Hadir.
  { apply WriteFile_cases in Hw1
      as [[_ [err [=]]]|(-> & _ & Hdir1 & Hpath1)].
    apply WriteFile_cases in Hw2
      as [[_ [err [=]]]|(-> & _ & Hdir2 & Hpath2)].
    rewrite lookup_insert_ne in Hpath2 by done.
    destruct (decide (LatestKonfFile = Dir activePath)) as [Heq|Hne];
      [by rewrite <-Heq in Hdir1|].
    destruct (decide (activePath = Dir activePath)) as [Heq|Hne'];
      [by rewrite <-Heq in Hdir1|].
    by rewrite !lookup_insert_ne. }
  unfold set, selectLastKonf, setContext, saveLatestKonf.
  rewrite bool_decide_eq_true_2 by done.
  rewrite (proj2 (ReadFile_lookup _ _ _) Hlatest).
  rewrite (proj2 (ReadFile_lookup _ _ _) Hst). fold activePath.
  by rewrite (WriteFile_same _ _ _ Hadir Hact),
    (WriteFile_same _ _ _ Hldir Hlatest).
Qed.

(** X5: a [set] that fails leaves the filesystem as it was, except when
    only the latest konf could not be written: then the active konf, a
    copy of a store file, is all that was written. *)
Theorem set_failure (f f' : Fs) (args out : list string) (r : res ()) :
  set f args = (f', out, r) →
  r ≠ Ok () →
  f' = f ∨
  ∃ id konf err,
    f !! StorePathForID id = Some (FileNode konf) ∧
    f' = <[activePath := FileNode konf]> f ∧
    saveLatestKonf f' id = (f', Some err) ∧
    r = Err (Errorf
      "could not save latest konf. As a result 'konf set -' might not work: %q "
      [ArgError err]).
Proof.
  intros [[-> _]|[Hlatest|(id & konf & _ & _ & ->)]]%set_writes Hr;
    [by left|by right|done].
Qed.

(** X6: [set] of an identifier without a store file fails with the
    not-exist error of the read, prints nothing and leaves the
    filesystem, and with it the latest konf, as it was. *)
Theorem set_unknown_id (f : Fs) (id : string) :
  id ≠ "-" →
  f !! StorePathForID id = None →
  set f [id] = (f, [], Err (PathError "open" (StorePathForID id) ENOENT)).
Proof.
  intros Hid Hnone. unfold set, setContext.
  rewrite bool_decide_eq_false_2 by done.
  by rewrite (ReadFile_missing _ _ Hnone).
Qed.

End set_command.

(** *** More on the store index *)

Section store_index.
Context {D : Deps}.

Lemma index_cases {A} (l : list A) (i : Z) :
  (∃ a, index l i = Ok a) ∨ (∃ p, index l i = Panicked p).
Proof.
  unfold index. case_bool_decide; [|eauto].
  destruct (l !! Z.to_nat i); eauto.
Qed.

(** One round of the loop of [fetchKonfs], by what is read for the
    konf. *)
Lemma fetchKonfs_loop_cons (f : Fs) konf konfs out :
  fetchKonfs_loop f (konf :: konfs) out
  = match readKonf f konf with
    | Ok None => fetchKonfs_loop f konfs out
    | Ok (Some kubeconf) =>
        if bool_decide (len (k8s.Contexts kubeconf) > 1)
           || bool_decide (len (k8s.Clusters kubeconf) > 1)
        then Err (KubeConfigOverload (konfPath konf))
        else
          context ← index (k8s.Contexts kubeconf) 0;
          cluster ← index (k8s.Clusters kubeconf) 0;
          fetchKonfs_loop f konfs
            (out ++ [{| Context := k8s.ContextName context;
                        Cluster := k8s.ClusterName cluster;
                        File := konfPath konf |}])
    | Err e => Err e
    | Panicked p => Panicked p
    end.
Proof.
  cbn [fetchKonfs_loop]. fold (konfPath konf).
  unfold readKonf, ReadFile, Open.
  by destruct (f !! konfPath konf) as [[val|]|].
Qed.

Lemma indexKonf_malformed (f : Fs) konf :
  malformed f konf → indexKonf f konf = None.
Proof. unfold malformed, indexKonf. by intros ->. Qed.

Lemma indexKonf_indexedAs (f : Fs) konf t :
  indexedAs f konf t ↔ indexKonf f konf = Some t.
Proof.
  unfold indexedAs, indexKonf. split.
  - by intros (context & cluster & -> & ->).
  - destruct (readKonf f konf) as [[[clusters contexts]|]| |]; [|done..].
    cbn. destruct contexts as [|context [|??]]; [done| |done].
    destruct clusters as [|cluster [|??]]; [done| |done].
    intros [= <-]. by exists context, cluster.
Qed.

(** The loop returns a list exactly when every konf is malformed or
    holds one cluster and one context; the list then has the entries of
    the latter, in the order of the konfs. *)
Lemma fetchKonfs_loop_Ok (f : Fs) konfs out result :
  fetchKonfs_loop f konfs out = Ok result ↔
  Forall (λ k, malformed f k ∨ ∃ t, indexedAs f k t) konfs ∧
  result = out ++ omap (indexKonf f) konfs.
Proof.
  revert out. induction konfs as [|k konfs IH]; intros out.
  { cbn. rewrite app_nil_r. split; [intros [= <-]|intros [_ ->]]; done. }
  rewrite fetchKonfs_loop_cons, Forall_cons. cbn [omap list_omap].
  destruct (readKonf f k) as [[kubeconf|]| |] eqn:Hread.
  - destruct kubeconf as [clusters contexts].
    destruct contexts as [|context [|??]];
      destruct clusters as [|cluster [|??]];
      cbn [k8s.Contexts k8s.Clusters]; unfold index;
      repeat (first
        [rewrite bool_decide_eq_true_2 by (unfold len; cbn [length]; lia)
        |rewrite bool_decide_eq_false_2 by (unfold len; cbn [length]; lia)]);
      simpl.
    all: try (split; [done|intros [[[Hm|(t & c1 & c2 & Hi & _)] _] _];
                [unfold malformed in Hm; congruence|congruence]]).
    rewrite IH. unfold indexKonf. rewrite Hread. cbn.
    rewrite <-app_assoc. cbn.
    split; [intros [? ->]; split; [|done]|intros [[_ ?] ->]; done].
    split; [|done]. right. eexists. by eexists context, cluster.
  - rewrite IH. rewrite indexKonf_malformed by done.
    split; [intros [? ->]; split; [|done]|intros [[_ ?] ->]; done].
    split; [|done]. by left.
  - split; [done|]. unfold malformed, indexedAs.
    intros [[[Hm|(t & c1 & c2 & Hi & _)] _] _]; congruence.
  - split; [done|]. unfold malformed, indexedAs.
    intros [[[Hm|(t & c1 & c2 & Hi & _)] _] _]; congruence.
Qed.

(** The errors of the loop: the overload of one of the konfs, or the
    error of reading one. *)
Lemma fetchKonfs_loop_Err (f : Fs) konfs out e :
  fetchKonfs_loop f konfs out = Err e →
  ∃ k, k ∈ konfs ∧
    ((overloaded f k ∧ e = KubeConfigOverload (konfPath k)) ∨
     (readKonf f k = Err e ∧
      ∃ op errno, e = PathError op (konfPath k) errno)).
Proof.
  revert out. induction konfs as [|k konfs IH]; intros out; [done|].
  rewrite fetchKonfs_loop_cons.
  destruct (readKonf f k) as [[kubeconf|]|e'|] eqn:Hread.
  - case_match eqn:Hmany.
    + intros [= <-]. exists k. split; [by left|]. left. split; [|done].
      exists kubeconf. split; [done|].
      apply orb_true_iff in Hmany as [?%bool_decide_eq_true|
                                      ?%bool_decide_eq_true]; auto.
    + destruct (index_cases (k8s.Contexts kubeconf) 0)
        as [[context ->]|[p ->]]; [|done].
      destruct (index_cases (k8s.Clusters kubeconf) 0)
        as [[cluster ->]|[p ->]]; [|done].
      intros (k' & Hin & Hk')%IH. exists k'. split; [by right|done].
  - intros (k' & Hin & Hk')%IH. exists k'. split; [by right|done].
  - intros [= <-]. exists k. split; [by left|]. right. split; [done|].
    unfold readKonf in Hread.
    destruct (ReadFile f (konfPath k)) as [?|e''|] eqn:Hfile; [done| |done].
    cbn in Hread. injection Hread as ->.
    destruct (ReadFile_Err _ _ _ Hfile) as [[_ ->]|[_ ->]]; eauto.
  - done.
Qed.

(** X7: on a present store, [fetchKonfs] returns a list exactly when
    there is a visible file and every visible file, read under its store
    path ([StorePathForID (IDFromFileInfo konf)], not the path it was
    found at), is malformed or holds one cluster and one context; the
    list then has one entry for each of the latter, in the name order of
    the files, and the malformed ones are skipped. *)
Theorem fetchKonfs_Ok (f : Fs) (out : list tableOutput) :
  storePresent f →
  fetchKonfs f = Ok out ↔
  storeKonfs f ≠ [] ∧
  Forall (λ k, malformed f k ∨ ∃ t, indexedAs f k t) (storeKonfs f) ∧
  out = omap (indexKonf f) (storeKonfs f).
Proof.
  intros Hstore. rewrite (fetchKonfs_present _ Hstore).
  destruct (storeKonfs f) as [|k ks] eqn:Hks.
  { split; [done|]. by intros [? _]. }
  rewrite fetchKonfs_loop_Ok. cbn [app].
  split; [intros [? ?]; by split_and!|intros (_ & ? & ?); by split].
Qed.

(** X8: on a present store, the errors of [fetchKonfs] are [EmptyStore],
    exactly when the store has no visible file, the overload of a
    visible file, and the error of reading a visible file under its
    store path; it returns no other error. *)
Theorem fetchKonfs_Err (f : Fs) (e : error) :
  storePresent f →
  fetchKonfs f = Err e →
  (e = EmptyStore ∧ storeKonfs f = []) ∨
  (storeKonfs f ≠ [] ∧ ∃ k, k ∈ storeKonfs f ∧
     ((overloaded f k ∧ e = KubeConfigOverload (konfPath k)) ∨
      (readKonf f k = Err e ∧
       ∃ op errno, e = PathError op (konfPath k) errno))).
Proof.
  intros Hstore. rewrite (fetchKonfs_present _ Hstore).
  destruct (storeKonfs f) as [|k ks] eqn:Hks.
  { intros [= <-]. by left. }
  intros He%fetchKonfs_loop_Err. by right.
Qed.

(** X9: on a present store, [fetchKonfs] fails with [EmptyStore] if and
    only if the store has no file that is neither hidden nor a
    directory. *)
Theorem fetchKonfs_EmptyStore (f : Fs) :
  storePresent f →
  fetchKonfs f = Err EmptyStore ↔ filter visible (readDir f StoreDir) = [].
Proof.
  intros Hstore.
  assert (storeKonfs f = [] ↔ filter visible (readDir f StoreDir) = [])
    as <-.
  { split; intros Hnil.
    - apply Permutation_nil_r. by rewrite <-storeKonfs_Permutation, Hnil.
    - apply Permutation_nil_r. by rewrite storeKonfs_Permutation, Hnil. }
  rewrite (fetchKonfs_present _ Hstore).
  destruct (storeKonfs f) as [|k ks] eqn:Hks; [done|].
  split; [|done].
  intros (k' & _ & [[_ ?]|[_ (op & errno & ?)]])%fetchKonfs_loop_Err; done.
Qed.

(** X10: without the store directory, [fetchKonfs] does not return: the
    walk hands the closure a nil [FileInfo], and the closure panics. *)
Theorem fetchKonfs_missing_store (f : Fs) :
  f !! StoreDir = None → fetchKonfs f = Panicked NilDereference.
Proof. intros Hnone. unfold fetchKonfs, Walk, lstat. by rewrite Hnone. Qed.

(** X11: when the store path is a regular file, [fetchKonfs] fails with
    [EmptyStore]. *)
Theorem fetchKonfs_store_is_file (f : Fs) (data : string) :
  f !! StoreDir = Some (FileNode data) →
  HasPrefix (Base StoreDir) "." = false →
  fetchKonfs f = Err EmptyStore.
Proof.
  intros Hfile Hhidden. unfold fetchKonfs, Walk, lstat. rewrite Hfile.
  destruct (size f); cbn -[HasPrefix]; by rewrite Hhidden.
Qed.

(** X12: a visible file whose store path does not exist stops the index
    with the not-exist error of the open, when the visible files before
    it are malformed or hold one cluster and one context. *)
Theorem fetchKonfs_unreadable (f : Fs) (pre post : list FileInfo)
    (konf : FileInfo) :
  storePresent f →
  storeKonfs f = pre ++ konf :: post →
  Forall (λ k, malformed f k ∨ ∃ t, indexedAs f k t) pre →
  f !! konfPath konf = None →
  fetchKonfs f = Err (PathError "open" (konfPath konf) ENOENT).
Proof.
  intros Hstore Hks Hpre Hnone.
  rewrite (fetchKonfs_present _ Hstore), Hks.
  destruct (fetchKonfs_loop_prefix f pre [] Hpre) as [out' ->].
  rewrite fetchKonfs_loop_cons. unfold readKonf.
  rewrite (ReadFile_missing _ _ Hnone). by destruct pre.
Qed.

(** The entries of a result come from visible files that hold one
    cluster and one context. *)
Lemma fetchKonfs_entry (f : Fs) (out : list tableOutput) (t : tableOutput) :
  storePresent f → fetchKonfs f = Ok out → t ∈ out →
  ∃ konf, konf ∈ storeKonfs f ∧ indexedAs f konf t.
Proof.
  intros Hstore Hout Ht. rewrite (fetchKonfs_present _ Hstore) in Hout.
  assert (fetchKonfs_loop f (storeKonfs f) [] = Ok out) as Hloop.
  { destruct (storeKonfs f); [done|exact Hout]. }
  apply fetchKonfs_loop_Ok in Hloop as [_ ->]. cbn [app] in Ht.
  apply list_elem_of_omap in Ht as (konf & Hin & Hindex).
  exists konf. split; [done|]. by apply indexKonf_indexedAs.
Qed.

(** X13: what [fetchKonfs] returns is backed by the store.  On a present
    store, every returned entry names in [File] an existing regular file
    whose content parses to a document with exactly one context and one
    cluster, and these give the [Context] and the [Cluster] of the
    entry. *)
Theorem fetchKonfs_sound (f : Fs) (out : list tableOutput)
    (t : tableOutput) :
  storePresent f → fetchKonfs f = Ok out → t ∈ out →
  ∃ val context cluster,
    f !! File t = Some (FileNode val) ∧
    Unmarshal val
    = Some {| k8s.Clusters := [cluster]; k8s.Contexts := [context] |} ∧
    Context t = k8s.ContextName context ∧
    Cluster t = k8s.ClusterName cluster.
Proof.
  intros Hstore Hout Ht.
  destruct (fetchKonfs_entry _ _ _ Hstore Hout Ht)
    as (konf & _ & context & cluster & Hread & ->).
  apply readKonf_Ok in Hread as (val & Hval & Hdoc).
  by exists val, context, cluster.
Qed.

Lemma CutPrefix_Some (s prefix rest : string) :
  CutPrefix s prefix = Some rest → s = prefix +:+ rest.
Proof.
  revert s. induction prefix as [|c prefix IH]; intros s.
  { destruct s; simpl; by intros [= <-]. }
  destruct s as [|d s]; simpl; [done|].
  destruct (decide (c = d)) as [->|]; [|done]. by intros ->%IH.
Qed.

Lemma CutPrefix_app (s a b rest : string) :
  CutPrefix s (a +:+ b) = Some rest → s = a +:+ b +:+ rest.
Proof.
  revert s. induction a as [|c a IH]; intros s.
  { exact (CutPrefix_Some s b rest). }
  destruct s as [|d s]; simpl; [done|].
  destruct (decide (c = d)) as [->|]; [|done]. by intros ->%IH.
Qed.

Lemma entryName_Some (dir path name : string) :
  entryName dir path = Some name → path = Join dir name.
Proof.
  unfold entryName, Join.
  destruct (CutPrefix _ _) as [rest|] eqn:Hcut; [|done].
  apply CutPrefix_app in Hcut. repeat case_match; [done..|].
  by intros [= <-].
Qed.

(** Entries of one directory with the same name are the same entry. *)
Lemma entries_unique (f : Fs) (dir : string) (x1 x2 : FileInfo) :
  x1 ∈ omap (entryInfo dir) (map_to_list f) →
  x2 ∈ omap (entryInfo dir) (map_to_list f) →
  Name x1 = Name x2 → x1 = x2.
Proof.
  intros ([p1 n1] & Hin1%elem_of_map_to_list & H1)%list_elem_of_omap
         ([p2 n2] & Hin2%elem_of_map_to_list & H2)%list_elem_of_omap Hname.
  unfold entryInfo in H1, H2. cbn in H1, H2.
  destruct (entryName dir p1) as [name1|] eqn:Hn1; [|done].
  destruct (entryName dir p2) as [name2|] eqn:Hn2; [|done].
  cbn in H1, H2. simplify_eq. cbn in Hname. subst name2.
  apply entryName_Some in Hn1, Hn2. by simplify_eq.
Qed.

(** Writing a path that is not an entry of [dir] does not change the
    listing of [dir]. *)
Lemma readDir_insert (f : Fs) (dir path : string) (n : node) :
  entryName dir path = None → readDir (<[path := n]> f) dir = readDir f dir.
Proof.
  intros Hpath. unfold readDir.
  assert (omap (entryInfo dir) (map_to_list (<[path := n]> f))
          ≡ₚ omap (entryInfo dir) (map_to_list f)) as Hperm.
  { assert (∀ n', entryInfo dir (path, n') = None) as Hnone.
    { intros n'. unfold entryInfo. cbn. by rewrite Hpath. }
    destruct (f !! path) as [n0|] eqn:Hlookup.
    - rewrite <-(insert_delete_eq f).
      rewrite map_to_list_insert by apply lookup_delete_eq.
      rewrite <-(map_to_list_delete f path n0) by done.
      cbn. by rewrite !Hnone.
    - rewrite map_to_list_insert by done. cbn. by rewrite Hnone. }
  apply (StronglySorted_unique_strong byName).
  - intros x1 x2 Hx1 Hx2 H12 H21.
    rewrite merge_sort_Permutation in Hx1, Hx2. rewrite <-Hperm in Hx2.
    eapply entries_unique; [done..|].
    by apply (anti_symm (≤)%string).
  - apply StronglySorted_merge_sort; apply _.
  - apply StronglySorted_merge_sort; apply _.
  - by rewrite !merge_sort_Permutation.
Qed.

Lemma fetchKonfs_loop_ext (f1 f2 : Fs) konfs out :
  (∀ k, k ∈ konfs → f1 !! konfPath k = f2 !! konfPath k) →
  fetchKonfs_loop f1 konfs out = fetchKonfs_loop f2 konfs out.
Proof.
  revert out. induction konfs as [|k konfs IH]; intros out Hsame; [done|].
  rewrite !fetchKonfs_loop_cons.
  assert (readKonf f1 k = readKonf f2 k) as ->.
  { unfold readKonf, ReadFile, Open. rewrite Hsame; [done|by left]. }
  assert (∀ out', fetchKonfs_loop f1 konfs out'
                  = fetchKonfs_loop f2 konfs out') as Hrest.
  { intros out'. apply IH. intros k' Hk'. apply Hsame. by right. }
  destruct (readKonf f2 k) as [[kubeconf|]| |]; [|done..].
  case_match; [done|].
  destruct (index _ 0); [|done..]. cbn.
  destruct (index _ 0); [|done..]. cbn. apply Hrest.
Qed.

Lemma fetchKonfs_same_visible (f1 f2 : Fs) :
  storePresent f1 → storePresent f2 →
  filter visible (readDir f1 StoreDir) = filter visible (readDir f2 StoreDir) →
  (∀ k, k ∈ readDir f1 StoreDir → visible k →
        f1 !! konfPath k = f2 !! konfPath k) →
  fetchKonfs f1 = fetchKonfs f2.
Proof.
  intros Hstore1 Hstore2 Hvisible Hsame.
  rewrite (fetchKonfs_present _ Hstore1), (fetchKonfs_present _ Hstore2).
  assert (storeKonfs f2 = storeKonfs f1) as ->.
  { unfold storeKonfs. by rewrite Hvisible. }
  destruct (storeKonfs f1) as [|k ks] eqn:Hks; [done|].
  apply fetchKonfs_loop_ext. intros k' Hk'. rewrite <-Hks in Hk'.
  rewrite storeKonfs_Permutation in Hk'.
  apply list_elem_of_filter in Hk' as [Hv Hk']. by apply Hsame.
Qed.

(** X14: [fetchKonfs] looks at the visible files of the store and at
    what their store paths hold, and at nothing else: two filesystems
    with a present store that agree on these give the same result,
    whatever hidden files, directories or other paths they have. *)
Theorem fetchKonfs_depends_on_visible (f1 f2 : Fs) :
  storePresent f1 → storePresent f2 →
  filter visible (readDir f1 StoreDir) = filter visible (readDir f2 StoreDir) →
  (∀ k, k ∈ readDir f1 StoreDir → visible k →
        f1 !! konfPath k = f2 !! konfPath k) →
  fetchKonfs f1 = fetchKonfs f2.
Proof.
  intros Hstore1 Hstore2 Hvisible Hsame.
  rewrite (fetchKonfs_present _ Hstore1), (fetchKonfs_present _ Hstore2).
  assert (storeKonfs f2 = storeKonfs f1) as ->.
  { unfold storeKonfs. by rewrite Hvisible. }
  destruct (storeKonfs f1) as [|k ks] eqn:Hks; [done|].
  apply fetchKonfs_loop_ext. intros k' Hk'. rewrite <-Hks in Hk'.
  rewrite storeKonfs_Permutation in Hk'.
  apply list_elem_of_filter in Hk' as [Hv Hk']. by apply Hsame.
Qed.

(** X15: [set] does not change the index.  When the active path and the
    latest-konf path lie outside the store, that is, they are neither
    the store directory, nor one of its entries, nor the store path of
    an identifier, then after [set], whatever its arguments and its
    outcome, [fetchKonfs] returns what it returned before. *)
Theorem set_keeps_index (f f' : Fs) (args out : list string) (r : res ()) :
  storePresent f →
  activePath ≠ StoreDir → LatestKonfFile ≠ StoreDir →
  entryName StoreDir activePath = None →
  entryName StoreDir LatestKonfFile = None →
  (∀ id, StorePathForID id ≠ activePath ∧
         StorePathForID id ≠ LatestKonfFile) →
  set f args = (f', out, r) →
  fetchKonfs f' = fetchKonfs f.
Proof.
  intros Hstore Ha Hl Hea Hel Hpaths Hset.
  assert (∀ path, path ≠ activePath → path ≠ LatestKonfFile →
                  f' !! path = f !! path) as Hframe.
  { intros path ??.
    destruct (set_writes _ _ _ _ _ Hset)
      as [[-> _]|[(id & konf & err & _ & -> & _)|(id & konf & _ & -> & _)]];
      by rewrite ?lookup_insert_ne. }
  assert (readDir f' StoreDir = readDir f StoreDir) as Hdir.
  { destruct (set_writes _ _ _ _ _ Hset)
      as [[-> _]|[(id & konf & err & _ & -> & _)|(id & konf & _ & -> & _)]];
      by rewrite ?readDir_insert. }
  apply fetchKonfs_same_visible; [|done|by rewrite Hdir|].
  - destruct Hstore as [Hroot Hhidden]. split; [|done].
    by rewrite Hframe.
  - intros k _ _. unfold konfPath. apply Hframe; apply Hpaths.
Qed.

End store_index.

(** *** More on the search of the prompt *)

Section search.

Lemma bytes_app (s1 s2 : string) : bytes (s1 +:+ s2) = bytes s1 ++ bytes s2.
Proof. induction s1 as [|c s1 IH]; simpl; [done|by rewrite IH]. Qed.

(** A rune read from its own encoding does not depend on what follows
    it. *)
Lemma DecodeRune_app (a b : list Z) :
  a ≠ [] → RuneLen (DecodeRune a).1 = (DecodeRune a).2 →
  DecodeRune (a ++ b) = DecodeRune a.
Proof.
  destruct a as [|s0 a]; [done|]. intros _.
  unfold DecodeRune. rewrite <-app_comm_cons.
  destruct (first s0) as [| |sz lo hi] eqn:Hfirst; [done..|].
  apply first_lead in Hfirst as (_ & _ & Hsz).
  assert (len ((s0 :: a) ++ b) = len (s0 :: a) + len b) as Hlen.
  { unfold len. rewrite length_app. lia. }
  assert (0 ≤ len b) by (unfold len; lia).
  rewrite app_comm_cons, Hlen.
  destruct (bool_decide (len (s0 :: a) < sz)) eqn:Hshort.
  { intros Hvalid. by vm_compute in Hvalid. }
  apply bool_decide_eq_false in Hshort.
  rewrite (bool_decide_eq_false_2 (_ + _ < sz)) by lia.
  intros _. unfold len in Hshort.
  destruct a as [|s1 [|s2 [|s3 a]]]; cbn [length] in Hshort;
    cbn [app nth]; repeat case_bool_decide; cbn [orb]; try done; lia.
Qed.

Lemma decode_app (a b : list Z) :
  ValidString a → decode (a ++ b) = decode a ++ decode b.
Proof.
  induction a as [|a Ha IH] using decode_ind; [done|].
  intros Hvalid%ValidString_Forall. rewrite (decode_cons a) in Hvalid by done.
  apply Forall_cons in Hvalid as [Hrune Hvalid].
  pose proof (DecodeRune_width a Ha) as Hw.
  rewrite (decode_cons (a ++ b)) by (by destruct a).
  rewrite (decode_cons a) by done.
  rewrite (DecodeRune_app a b) by done.
  rewrite drop_app_le by (unfold len in Hw; lia).
  rewrite IH by (by apply ValidString_Forall). done.
Qed.

Lemma ValidString_app (a b : list Z) :
  ValidString a → ValidString b → ValidString (a ++ b).
Proof.
  intros Ha Hb. apply ValidString_Forall. rewrite decode_app by done.
  apply Forall_app. by split; apply ValidString_Forall.
Qed.

Lemma runes_app (a b : list Z) :
  ValidString a → runes (a ++ b) = runes a ++ runes b.
Proof.
  intros Ha. by rewrite !runes_decode, decode_app, fmap_app.
Qed.

(** ASCII strings are valid UTF-8, and their runes are their bytes. *)
Lemma decode_ASCII (s : list Z) :
  Forall (λ b, 0 ≤ b) s → Forall (λ b, b < 0x80) s →
  decode s = (λ b, (b, 1)) <$> s.
Proof.
  induction s as [|b s IH]; [done|].
  intros [Hb0 Hs0]%Forall_cons [Hb Hs]%Forall_cons.
  rewrite decode_cons by done.
  assert (DecodeRune (b :: s) = (b, 1)) as ->.
  { unfold DecodeRune, first. by rewrite bool_decide_eq_true_2. }
  change (drop (Z.to_nat (b, 1).2) (b :: s)) with s.
  by rewrite IH.
Qed.

Lemma ValidString_ASCII (s : string) : isASCII s → ValidString (bytes s).
Proof.
  intros Hs. apply ValidString_Forall.
  pose proof (bytes_nonneg s) as Hs0.
  unfold isASCII in Hs.
  rewrite decode_ASCII by done. apply Forall_fmap.
  rewrite Forall_forall in Hs, Hs0. apply Forall_forall. intros b Hb.
  specialize (Hs _ Hb). specialize (Hs0 _ Hb). cbn in *.
  unfold RuneLen. repeat case_bool_decide; lia.
Qed.

Lemma runes_ASCII (s : string) : isASCII s → runes (bytes s) = bytes s.
Proof.
  intros Hs. rewrite runes_decode, decode_ASCII;
    [|apply bytes_nonneg|done].
  rewrite <-list_fmap_compose. apply list_fmap_id.
Qed.

Lemma validEntry_surface (t : tableOutput) :
  validEntry t → ValidString (bytes (searchSurface t)).
Proof.
  intros (Hcontext & Hcluster & Hfile). unfold searchSurface.
  rewrite !bytes_app. repeat apply ValidString_app; try done.
Qed.

Lemma runes_surface (t : tableOutput) :
  validEntry t →
  runes (bytes (searchSurface t))
  = runes (bytes (Context t)) ++ [32] ++ runes (bytes (Cluster t))
    ++ [32] ++ runes (bytes (File t)).
Proof.
  intros (Hcontext & Hcluster & Hfile). unfold searchSurface.
  rewrite !bytes_app. by rewrite !runes_app.
Qed.

(** X16: the empty search term matches every entry, whatever its
    bytes. *)
Theorem searchKonf_empty (curItem : tableOutput) :
  searchKonf "" curItem = Ok true.
Proof.
  unfold searchKonf, Match. cbn [bytes].
  rewrite bool_decide_eq_false_2 by (unfold len; cbn; lia).
  by destruct (_ && _).
Qed.

(** X17: for an entry whose three fields are valid UTF-8, [searchKonf]
    returns, and it returns true if and only if the runes of the search
    term occur in order in the runes of the context, a space, the
    cluster, a space and the file. *)
Theorem searchKonf_valid_entry (searchTerm : string)
    (curItem : tableOutput) :
  validEntry curItem →
  ∃ b : bool, searchKonf searchTerm curItem = Ok b ∧
    (b = true ↔
     runes (bytes searchTerm)
       `sublist_of` runes (bytes (Context curItem)) ++ [32]
                    ++ runes (bytes (Cluster curItem)) ++ [32]
                    ++ runes (bytes (File curItem))).
Proof.
  intros Hvalid. rewrite <-runes_surface by done.
  by apply Match_sublist, validEntry_surface.
Qed.

(** X18: an entry with valid UTF-8 fields is found under each of its
    fields, and under its context and cluster typed one after the
    other. *)
Theorem searchKonf_fields (curItem : tableOutput) :
  validEntry curItem →
  searchKonf (Context curItem) curItem = Ok true ∧
  searchKonf (Cluster curItem) curItem = Ok true ∧
  searchKonf (File curItem) curItem = Ok true ∧
  searchKonf (Context curItem +:+ Cluster curItem) curItem = Ok true.
Proof.
  intros Hvalid. pose proof Hvalid as (Hcontext & Hcluster & Hfile).
  assert (∀ q, runes (bytes q) `sublist_of`
                 runes (bytes (searchSurface curItem)) →
               searchKonf q curItem = Ok true) as Hfound.
  { intros q Hq.
    destruct (Match_sublist q (searchSurface curItem)) as (b & Hb & Hiff);
      [by apply validEntry_surface|].
    unfold searchKonf. rewrite Hb. f_equal. by apply Hiff. }
  split_and!; apply Hfound; rewrite runes_surface by done.
  - by apply sublist_inserts_r.
  - apply sublist_inserts_l, (sublist_inserts_l [32]).
    by apply sublist_inserts_r.
  - by do 4 apply sublist_inserts_l.
  - rewrite bytes_app, runes_app by done.
    apply sublist_app; [done|]. apply sublist_cons.
    by apply sublist_inserts_r.
Qed.

(** X19: typing more can only narrow the list.  On an entry whose search
    surface is valid UTF-8, when a search term matches, so does every
    term whose runes are among its runes in the same order: every
    shorter term it was typed from. *)
Theorem searchKonf_narrows (shorter longer : string)
    (curItem : tableOutput) :
  ValidString (bytes (searchSurface curItem)) →
  runes (bytes shorter) `sublist_of` runes (bytes longer) →
  searchKonf longer curItem = Ok true →
  searchKonf shorter curItem = Ok true.
Proof.
  intros Hvalid Hsub Hlonger. unfold searchKonf in *.
  destruct (Match_sublist longer (searchSurface curItem) Hvalid)
    as (b1 & Hb1 & Hiff1).
  destruct (Match_sublist shorter (searchSurface curItem) Hvalid)
    as (b2 & -> & Hiff2).
  f_equal. apply Hiff2. etrans; [done|]. apply Hiff1. congruence.
Qed.

(** X20: on an entry whose search surface is valid UTF-8, a search term
    with a rune that occurs nowhere in the surface does not match. *)
Theorem searchKonf_absent_rune (searchTerm : string)
    (curItem : tableOutput) (r : Z) :
  ValidString (bytes (searchSurface curItem)) →
  r ∈ runes (bytes searchTerm) →
  r ∉ runes (bytes (searchSurface curItem)) →
  searchKonf searchTerm curItem = Ok false.
Proof.
  intros Hvalid Hin Hnotin. unfold searchKonf.
  destruct (Match_sublist searchTerm (searchSurface curItem) Hvalid)
    as ([|] & -> & Hiff); [|done].
  destruct Hnotin. eapply elem_of_sublist; [done|]. by apply Hiff.
Qed.

(** X21: on ASCII strings the search is a search for a subsequence of
    bytes: for an ASCII search term and an entry with ASCII fields,
    [searchKonf] returns true if and only if the bytes of the term occur
    in order in the bytes of "Context Cluster File". *)
Theorem searchKonf_ASCII (searchTerm : string) (curItem : tableOutput) :
  isASCII searchTerm → isASCII (Context curItem) →
  isASCII (Cluster curItem) → isASCII (File curItem) →
  ∃ b : bool, searchKonf searchTerm curItem = Ok b ∧
    (b = true ↔
     bytes searchTerm `sublist_of` bytes (searchSurface curItem)).
Proof.
  intros Hterm Hcontext Hcluster Hfile.
  assert (isASCII (searchSurface curItem)) as Hsurface.
  { unfold isASCII, searchSurface. rewrite !bytes_app.
    repeat apply Forall_app_2; try done; by repeat constructor. }
  rewrite <-(runes_ASCII searchTerm), <-(runes_ASCII (searchSurface curItem))
    by done.
  by apply Match_sublist, ValidString_ASCII.
Qed.

(** X22: the [Searcher] of the prompt.  For options with valid UTF-8
    fields, the searcher that [createPrompt] installs answers for a row
    of the list whether the search term matches the entry of that row;
    for an index that is not a row it panics. *)
Theorem createPrompt_Searcher (options : list tableOutput)
    (input : string) (i : Z) :
  Forall validEntry options →
  Items (createPrompt options) = options ∧
  (0 ≤ i < len options →
   ∃ t b, options !! Z.to_nat i = Some t ∧
          Searcher (createPrompt options) input i = Ok b ∧
          (b = true ↔ matchesExact input t)) ∧
  (¬ 0 ≤ i < len options →
   Searcher (createPrompt options) input i
   = Panicked (IndexOutOfRange i (len options))).
Proof.
  intros Hvalid. split; [done|]. cbn [createPrompt Searcher]. unfold index.
  split; intros Hi.
  - rewrite bool_decide_eq_true_2 by done.
    destruct (options !! Z.to_nat i) as [t|] eqn:Ht.
    + rewrite Forall_forall in Hvalid.
      destruct (Match_sublist input (searchSurface t)) as (b & Hb & Hiff).
      { apply validEntry_surface, Hvalid. by eapply list_elem_of_lookup_2. }
      by exists t, b.
    + apply lookup_ge_None in Ht. unfold len in Hi. lia.
  - by rewrite bool_decide_eq_false_2.
Qed.

End search.

(** *** More on the picker and the completion *)

Section picker_completion.
Context {D : Deps}.

Lemma selectContext_Ok (f : Fs) (pf : promptFunc) (id : string) :
  selectContext f pf = Ok id →
  ∃ k selPos sel,
    fetchKonfs f = Ok k ∧ pf (createPrompt k) = (selPos, None) ∧
    0 ≤ selPos < len k ∧ k !! Z.to_nat selPos = Some sel ∧
    id = entryID sel.
Proof.
  unfold selectContext.
  destruct (fetchKonfs f) as [k| |]; [|done..]. cbn.
  destruct (pf (createPrompt k)) as [selPos [err|]] eqn:Hpf; [done|].
  case_bool_decide as Hge; [done|]. unfold index.
  case_bool_decide as Hrange; [|done].
  destruct (k !! Z.to_nat selPos) as [sel|] eqn:Hsel; [|done].
  cbn. intros [= <-]. by exists k, selPos, sel.
Qed.

Lemma selectContext_pick (f : Fs) (pf : promptFunc) (k : list tableOutput)
    (i : nat) (sel : tableOutput) :
  fetchKonfs f = Ok k → pf (createPrompt k) = (Z.of_nat i, None) →
  k !! i = Some sel →
  selectContext f pf = Ok (entryID sel).
Proof.
  intros Hk Hpf Hsel. unfold selectContext. rewrite Hk. cbn. rewrite Hpf.
  pose proof (lookup_lt_Some _ _ _ Hsel) as Hlt.
  rewrite bool_decide_eq_false_2 by (unfold len; lia).
  unfold index. rewrite bool_decide_eq_true_2 by (unfold len; lia).
  by rewrite Nat2Z.id, Hsel.
Qed.

(** X23: the errors of [selectContext] are the error of [fetchKonfs],
    the error of the prompt, both unchanged, and the invalid-selection
    error for a position from the number of entries on; it returns no
    other error. *)
Theorem selectContext_Err (f : Fs) (pf : promptFunc) (e : error) :
  selectContext f pf = Err e →
  fetchKonfs f = Err e ∨
  ∃ k selPos,
    fetchKonfs f = Ok k ∧
    (pf (createPrompt k) = (selPos, Some e) ∨
     (pf (createPrompt k) = (selPos, None) ∧ len k ≤ selPos ∧
      e = Errorf "invalid selection %d" [ArgInt selPos])).
Proof.
  unfold selectContext.
  destruct (fetchKonfs f) as [k|e'|]; [|by intros [= <-]; left|done].
  cbn.
  destruct (pf (createPrompt k)) as [selPos [err|]] eqn:Hpf.
  { intros [= <-]. right. exists k, selPos. by split; [|left]. }
  case_bool_decide as Hge.
  { intros [= <-]. right. exists k, selPos.
    split; [done|]. right. split_and!; [done|lia|done]. }
  destruct (index_cases k selPos) as [[sel ->]|[p ->]]; done.
Qed.

(** X24: the completion and the picker agree.  When [completeSet]
    returns suggestions, an identifier is among them if and only if some
    selection in the prompt makes [selectContext] return it. *)
Theorem completeSet_selectContext (f : Fs) (ids : list string)
    (directive : ShellCompDirective) (id : string) :
  completeSet f = Ok (Some ids, directive) →
  id ∈ ids ↔ ∃ pf, selectContext f pf = Ok id.
Proof.
  unfold completeSet.
  destruct (fetchKonfs f) as [k|e|p] eqn:Hk; [| |done].
  - intros [= <- <-]. rewrite list_elem_of_fmap. split.
    + intros (sel & -> & (i & Hsel)%list_elem_of_lookup).
      exists (λ _, (Z.of_nat i, None)).
      by eapply selectContext_pick.
    + intros (pf & (k' & selPos & sel & Hk' & _ & _ & Hsel & ->)%
                    selectContext_Ok).
      rewrite Hk in Hk'. injection Hk' as <-.
      exists sel. split; [done|]. by eapply list_elem_of_lookup_2.
  - destruct e; intros [= <- <-]. split; [by intros ?%elem_of_nil|].
    intros (pf & Hsel). unfold selectContext in Hsel.
    by rewrite Hk in Hsel.
Qed.

(** X25: the picker activates by identifier, not by the file it showed.
    When the picked entry comes from a file that is not stored under the
    store path of the identifier built from its cluster and context,
    and no file is, [set] without arguments fails with the not-exist
    error for that path and writes nothing. *)
Theorem set_picked_missing (f : Fs) (k : list tableOutput) (i : nat)
    (sel : tableOutput) :
  fetchKonfs f = Ok k →
  Terminal (createPrompt k) = (Z.of_nat i, None) →
  k !! i = Some sel →
  f !! StorePathForID (entryID sel) = None →
  set f []
  = (f, [], Err (PathError "open" (StorePathForID (entryID sel)) ENOENT)).
Proof.
  intros Hk Hpf Hsel Hnone. unfold set.
  rewrite (selectContext_pick _ _ _ _ _ Hk Hpf Hsel). unfold setContext.
  by rewrite (ReadFile_missing _ _ Hnone).
Qed.

(** X26: picking a konf that is stored under the store path of its
    identifier.  On a present store, when the [File] of the picked entry
    is the store path of its identifier, the directory of the active
    path and the directory of the latest-konf path exist, and neither of
    the two paths is itself a directory, [set] without arguments copies
    that file to the active path, records the identifier as the latest
    konf, prints the line for the shell hook and returns nil. *)
Theorem set_picked (f : Fs) (k : list tableOutput) (i : nat)
    (sel : tableOutput) :
  storePresent f →
  fetchKonfs f = Ok k →
  Terminal (createPrompt k) = (Z.of_nat i, None) →
  k !! i = Some sel →
  StorePathForID (entryID sel) = File sel →
  f !! Dir activePath = Some DirNode →
  f !! Dir LatestKonfFile = Some DirNode →
  f !! activePath ≠ Some DirNode →
  f !! LatestKonfFile ≠ Some DirNode →
  ∃ konf,
    f !! File sel = Some (FileNode konf) ∧
    set f []
    = (<[LatestKonfFile := FileNode (entryID sel)]>
         (<[activePath := FileNode konf]> f),
       [signal], Ok ()).
Proof.
  intros Hstore Hk Hpf Hsel Hpath Hadir Hldir Hactive Hlatest.
  destruct (fetchKonfs_entry f k sel Hstore Hk)
    as (konf & _ & context & cluster & Hread & Ht).
  { by eapply list_elem_of_lookup_2. }
  apply readKonf_Ok in Hread as (val & Hval & _).
  assert (File sel = konfPath konf) as Hfile by by rewrite Ht.
  exists val. split; [by rewrite Hfile|].
  unfold set. rewrite (selectContext_pick _ _ _ _ _ Hk Hpf Hsel).
  unfold setContext, saveLatestKonf. rewrite Hpath, Hfile.
  rewrite (proj2 (ReadFile_lookup _ _ _) Hval). fold activePath.
  destruct (WriteFile_twice f activePath LatestKonfFile val (entryID sel))
    as [-> ->]; done.
Qed.

End picker_completion.

(** *** The completion *)

Section completion.
Context {D : Deps}.

(** C9, as the code has it: wherever [fetchKonfs] returns, [completeSet]
    returns.  For a list of entries it returns the identifier built from
    the cluster and the context of every entry; for [EmptyStore] an empty
    list without an error; for every other error the error directive.
    In terms of a present store: without a visible file the completion
    is the empty list; when every visible file, read under its store
    path, is malformed or holds one cluster and one context, it is the
    identifiers of the latter in the name order of the files; and when
    the first visible file that is neither is overloaded or unreadable,
    it is the error directive. *)
Theorem completeSet_fetchKonfs (f : Fs) :
  (∀ konfs, fetchKonfs f = Ok konfs →
     completeSet f
     = Ok (Some ((λ konf,
                   IDFromClusterAndContext (Cluster konf) (Context konf))
                 <$> konfs),
           ShellCompDirectiveNoFileComp)) ∧
  (fetchKonfs f = Err EmptyStore →
     completeSet f = Ok (Some [], ShellCompDirectiveNoFileComp)) ∧
  (∀ err, fetchKonfs f = Err err → err ≠ EmptyStore →
     completeSet f = Ok (None, ShellCompDirectiveError)) ∧
  (storePresent f →
     (storeKonfs f = [] →
        completeSet f = Ok (Some [], ShellCompDirectiveNoFileComp)) ∧
     (storeKonfs f ≠ [] →
      Forall (λ k, malformed f k ∨ ∃ t, indexedAs f k t) (storeKonfs f) →
        completeSet f
        = Ok (Some (entryID <$> omap (indexKonf f) (storeKonfs f)),
              ShellCompDirectiveNoFileComp)) ∧
     (∀ pre konf post,
        storeKonfs f = pre ++ konf :: post →
        Forall (λ k, malformed f k ∨ ∃ t, indexedAs f k t) pre →
        overloaded f konf ∨ (∃ e, readKonf f konf = Err e) →
        completeSet f = Ok (None, ShellCompDirectiveError))).
Proof.
  unfold completeSet. split_and!.
  - by intros konfs ->.
  - by intros ->.
  - intros err -> Hne. by destruct err.
  - intros Hstore. rewrite (fetchKonfs_present _ Hstore). split_and!.
    + by intros ->.
    + intros Hne Hall.
      destruct (storeKonfs f) as [|k ks] eqn:Hks; [done|].
      by rewrite (proj2 (fetchKonfs_loop_Ok f (k :: ks) [] _)
                    (conj Hall eq_refl)).
    + intros pre konf post -> Hpre Hkonf.
      destruct (fetchKonfs_loop_prefix f pre [] Hpre) as [out' Hout'].
      assert (∃ e, fetchKonfs_loop f (pre ++ konf :: post) [] = Err e ∧
                   e ≠ EmptyStore) as (e & He & Hne).
      { rewrite Hout'. destruct Hkonf as [Hover|[e He]].
        - rewrite fetchKonfs_loop_overloaded by done. eauto.
        - rewrite fetchKonfs_loop_cons, He. exists e. split; [done|].
          unfold readKonf in He.
          destruct (ReadFile f (konfPath konf)) as [val|e'|] eqn:Hread;
            [done| |done].
          injection He as ->.
          by destruct (ReadFile_Err _ _ _ Hread) as [[_ ->]|[_ ->]]. }
      destruct pre; cbn [app] in *; rewrite He; by destruct e.
Qed.

End completion.

(** *** The table *)

Section table.

Lemma repeatString_length (s : string) (n : nat) :
  Stdlib.Strings.String.length (repeatString s n)
  = (n * Stdlib.Strings.String.length s)%nat.
Proof.
  induction n as [|n IH]; [done|]. simpl.
  rewrite string_length_app, IH. lia.
Qed.

(** X27: [prepareTable] returns for every width, also a negative one: a
    width below 7 counts as 7.  The label is two spaces, the three
    header cells separated by space, bar, space, and a final space; the
    cells begin with Context, Cluster and File and each is as long as
    the width, to which the two row templates truncate their cells. *)
Theorem prepareTable_label (maxColumnLen : Z) :
  let width := Z.max maxColumnLen 7 in
  ∃ c1 c2 c3,
    prepareTable maxColumnLen
    = Some (rowTemplate "  " width "",
            rowTemplate activeMarker width "bold | cyan",
            "  " +:+ c1 +:+ " | " +:+ c2 +:+ " | " +:+ c3 +:+ " ") ∧
    HasPrefix c1 "Context" = true ∧ HasPrefix c2 "Cluster" = true ∧
    HasPrefix c3 "File" = true ∧
    Stdlib.Strings.String.length c1 = Z.to_nat width ∧
    Stdlib.Strings.String.length c2 = Z.to_nat width ∧
    Stdlib.Strings.String.length c3 = Z.to_nat width.
Proof.
  intros width. unfold prepareTable.
  assert ((if bool_decide (maxColumnLen < 7) then 7 else maxColumnLen)
          = width) as ->.
  { unfold width. case_bool_decide; lia. }
  assert (7 ≤ width) as Hwidth by (unfold width; lia).
  unfold Repeat. rewrite !bool_decide_eq_false_2 by lia.
  exists ("Context" +:+ repeatString " " (Z.to_nat (width - 7))),
         ("Cluster" +:+ repeatString " " (Z.to_nat (width - 7))),
         ("File" +:+ repeatString " " (Z.to_nat (width - 4))).
  split; [reflexivity|].
  split_and!;
    [unfold HasPrefix; simpl; by destruct (repeatString _ _)..| | |];
    rewrite string_length_app, repeatString_length; simpl; lia.
Qed.

End table.

(** *** The properties on the sample installation *)

#[local] Existing Instance Sample.installation.

Lemma selectLastKonf_saveLatestKonf_witness :
  selectLastKonf (saveLatestKonf Sample.fsTwo "dev-eu_dev-eu-1").1
    = Ok "dev-eu_dev-eu-1" ∧
  selectLastKonf Sample.fsTwo = Err nothingSetYet.
Proof.
  destruct (selectLastKonf_saveLatestKonf Sample.fsTwo "dev-eu_dev-eu-1")
    as (Hsaved & Hnone & _).
  split; [apply Hsaved|apply Hnone]; vm_compute; reflexivity.
Defined.

Lemma setContext_copy_witness :
  ReadFile (setContext "dev-eu_dev-eu-1" Sample.fsTwo).1
    "konf/active/4711.yaml" = Ok Sample.docEU ∧
  ∃ err, setContext "i-am-invalid" Sample.fsTwo = (Sample.fsTwo, Err err) ∧
         IsNotExist err = true.
Proof.
  split.
  - eapply (proj1 (setContext_copy "dev-eu_dev-eu-1" Sample.fsTwo)).
    + vm_compute; reflexivity.
    + vm_compute; reflexivity.
  - apply (proj2 (setContext_copy "i-am-invalid" Sample.fsTwo)).
    vm_compute; reflexivity.
Defined.

Lemma set_saveLatestKonf_failure_witness :
  set Sample.fsLatestDir ["dev-eu_dev-eu-1"]
  = ((setContext "dev-eu_dev-eu-1" Sample.fsLatestDir).1, [],
     Err (Errorf
       "could not save latest konf. As a result 'konf set -' might not work: %q "
       [ArgError (PathError "open" "konf/latestkonf" EISDIR)])).
Proof.
  apply (set_saveLatestKonf_failure Sample.fsLatestDir
           (setContext "dev-eu_dev-eu-1" Sample.fsLatestDir).1
           (setContext "dev-eu_dev-eu-1" Sample.fsLatestDir).1
           "dev-eu_dev-eu-1" "konf/active/4711.yaml"
           (PathError "open" "konf/latestkonf" EISDIR)).
  - discriminate.
  - vm_compute; reflexivity.
  - vm_compute; reflexivity.
Defined.

Lemma fetchKonfs_first_overloaded_witness :
  fetchKonfs Sample.fsOverloaded
  = Err (KubeConfigOverload "konf/store/multi.yaml").
Proof.
  assert (konfPath (Sample.file "multi.yaml") = "konf/store/multi.yaml")
    as <- by (vm_compute; reflexivity).
  apply (fetchKonfs_first_overloaded Sample.fsOverloaded
           [Sample.file "bad.yaml"; Sample.file "dev-asia_dev-asia-1.yaml";
            Sample.file "dev-eu_dev-eu-1.yaml"]
           [Sample.file "z.yaml"] (Sample.file "multi.yaml")).
  - split; vm_compute; reflexivity.
  - vm_compute; reflexivity.
  - repeat apply Forall_cons_2; [| | |apply Forall_nil_2].
    + left. vm_compute; reflexivity.
    + right. eexists.
      exists (k8s.Build_NamedContext "dev-asia"),
             (k8s.Build_NamedCluster "dev-asia-1").
      split; [vm_compute|]; reflexivity.
    + right. eexists.
      exists (k8s.Build_NamedContext "dev-eu"),
             (k8s.Build_NamedCluster "dev-eu-1").
      split; [vm_compute|]; reflexivity.
  - exists (Sample.config ["dev-eu-1"; "dev-asia-1"] ["dev-eu"]).
    split; [vm_compute; reflexivity|]. right. reflexivity.
Defined.

(** C1 as stated fails: a hidden file with two clusters does not stop
    the index, and with two offending files the error carries the path
    of the first one only. *)
Lemma fetchKonfs_overloaded_counterexample :
  (Sample.file ".multi.yaml" ∈ readDir Sample.fsHiddenOverloaded StoreDir ∧
   overloaded Sample.fsHiddenOverloaded (Sample.file ".multi.yaml") ∧
   fetchKonfs Sample.fsHiddenOverloaded
   = Ok [{| Context := "dev-eu"; Cluster := "dev-eu-1";
            File := "konf/store/dev-eu_dev-eu-1.yaml" |}]) ∧
  (Sample.file "b.yaml" ∈ readDir Sample.fsTwoOverloaded StoreDir ∧
   overloaded Sample.fsTwoOverloaded (Sample.file "b.yaml") ∧
   konfPath (Sample.file "b.yaml") = "konf/store/b.yaml" ∧
   fetchKonfs Sample.fsTwoOverloaded
   = Err (KubeConfigOverload "konf/store/a.yaml")).
Proof.
  split; split_and!.
  - assert (readDir Sample.fsHiddenOverloaded StoreDir
            = [Sample.file ".multi.yaml";
               Sample.file "dev-eu_dev-eu-1.yaml"]) as ->
      by (vm_compute; reflexivity).
    apply list_elem_of_here.
  - exists (Sample.config ["dev-eu-1"; "dev-asia-1"] ["dev-eu"]).
    split; [vm_compute; reflexivity|]. right. reflexivity.
  - vm_compute; reflexivity.
  - assert (readDir Sample.fsTwoOverloaded StoreDir
            = [Sample.file "a.yaml"; Sample.file "b.yaml"]) as ->
      by (vm_compute; reflexivity).
    apply list_elem_of_further, list_elem_of_here.
  - exists (Sample.config ["dev-eu-1"] ["dev-eu"; "dev-asia"]).
    split; [vm_compute; reflexivity|]. left. reflexivity.
  - vm_compute; reflexivity.
  - vm_compute; reflexivity.
Qed.

Lemma fetchKonfs_all_malformed_witness :
  fetchKonfs Sample.fsMalformed = Ok [].
Proof.
  apply (fetchKonfs_all_malformed Sample.fsMalformed).
  - split; vm_compute; reflexivity.
  - vm_compute; discriminate.
  - assert (storeKonfs Sample.fsMalformed = [Sample.file "bad.yaml"]) as ->
      by (vm_compute; reflexivity).
    apply Forall_cons_2; [|apply Forall_nil_2]. vm_compute; reflexivity.
Defined.

Lemma fetchKonfs_valid_store_witness :
  (readDir Scenario.fsCluttered StoreDir
   = [Sample.file ".DS_Store"; Sample.file "dev-asia_dev-asia-1.yaml";
      Sample.file "dev-eu_dev-eu-1.yaml";
      {| Name := "old"; IsDir := true |}] ∧
   fetchKonfs Scenario.fsCluttered = Ok [Scenario.asia; Scenario.eu]) ∧
  ∃ out, fetchKonfs Sample.fsTwo = Ok out ∧
         length out = length (readDir Sample.fsTwo StoreDir).
Proof.
  split.
  - assert (readDir Scenario.fsCluttered StoreDir
            = [Sample.file ".DS_Store"; Sample.file "dev-asia_dev-asia-1.yaml";
               Sample.file "dev-eu_dev-eu-1.yaml";
               {| Name := "old"; IsDir := true |}]) as Hdir
      by (vm_compute; reflexivity).
    split; [exact Hdir|].
    destruct (fetchKonfs_valid_store Scenario.fsCluttered)
      as (out & Hfetch & Hout & _).
    + split; vm_compute; reflexivity.
    + rewrite Hdir. clear Hdir. intros konf Hin Hvis.
      apply elem_of_cons in Hin as [->|Hin];
        [vm_compute in Hvis; destruct Hvis|].
      apply elem_of_cons in Hin as [->|Hin].
      { exists Scenario.asia, (k8s.Build_NamedContext "dev-asia"),
               (k8s.Build_NamedCluster "dev-asia-1").
        split; vm_compute; reflexivity. }
      apply elem_of_cons in Hin as [->|Hin].
      { exists Scenario.eu, (k8s.Build_NamedContext "dev-eu"),
               (k8s.Build_NamedCluster "dev-eu-1").
        split; vm_compute; reflexivity. }
      apply elem_of_cons in Hin as [->|Hin];
        [vm_compute in Hvis; destruct Hvis|].
      by apply elem_of_nil in Hin.
    + clear Hdir.
      assert (storeKonfs Scenario.fsCluttered
              = [Sample.file "dev-asia_dev-asia-1.yaml";
                 Sample.file "dev-eu_dev-eu-1.yaml"]) as Hks
        by (vm_compute; reflexivity).
      rewrite Hks in Hfetch, Hout. rewrite Hfetch. clear Hfetch Hks.
      f_equal.
      apply Forall2_cons_inv_l in Hout
        as (t1 & out1 & (c1 & l1 & Hr1 & ->) & Hout & ->).
      apply Forall2_cons_inv_l in Hout
        as (t2 & out2 & (c2 & l2 & Hr2 & ->) & Hout & ->).
      apply Forall2_nil_inv_l in Hout as ->.
      vm_compute in Hr1. vm_compute in Hr2.
      injection Hr1 as <- <-. injection Hr2 as <- <-.
      vm_compute; reflexivity.
  - destruct (fetchKonfs_valid_store Sample.fsTwo)
      as (out & Hfetch & _ & _ & _ & _ & Hlen).
    + split; vm_compute; reflexivity.
    + assert (readDir Sample.fsTwo StoreDir
              = [Sample.file "dev-asia_dev-asia-1.yaml";
                 Sample.file "dev-eu_dev-eu-1.yaml"]) as ->
        by (vm_compute; reflexivity).
      intros konf Hin _.
      apply elem_of_cons in Hin as [->|Hin];
        [|apply elem_of_cons in Hin as [->|Hin];
          [|by apply elem_of_nil in Hin]].
      * eexists.
        exists (k8s.Build_NamedContext "dev-asia"),
               (k8s.Build_NamedCluster "dev-asia-1").
        split; [vm_compute|]; reflexivity.
      * eexists.
        exists (k8s.Build_NamedContext "dev-eu"),
               (k8s.Build_NamedCluster "dev-eu-1").
        split; [vm_compute|]; reflexivity.
    + exists out. split.
      * assert (storeKonfs Sample.fsTwo
                = [Sample.file "dev-asia_dev-asia-1.yaml";
                   Sample.file "dev-eu_dev-eu-1.yaml"]) as Hks
          by (vm_compute; reflexivity).
        rewrite Hks in Hfetch. exact Hfetch.
      * apply Hlen.
        assert (readDir Sample.fsTwo StoreDir
                = [Sample.file "dev-asia_dev-asia-1.yaml";
                   Sample.file "dev-eu_dev-eu-1.yaml"]) as ->
          by (vm_compute; reflexivity).
        repeat apply Forall_cons_2; [| |apply Forall_nil_2];
          vm_compute; exact I.
Defined.

(** C8 as stated fails: a store whose only file is a konf with one
    cluster and one context, named with the extension [.yml], is not
    indexed.  [fetchKonfs] looks for the file under the store path of its
    identifier, with the extension [.yaml], and returns the error of
    that open and no entry. *)
Lemma fetchKonfs_valid_store_counterexample :
  readDir Scenario.fsYml StoreDir = [Sample.file "dev-eu_dev-eu-1.yml"] ∧
  Scenario.fsYml !! Join StoreDir "dev-eu_dev-eu-1.yml"
  = Some (FileNode Sample.docEU) ∧
  Unmarshal Sample.docEU = Some (Sample.config ["dev-eu-1"] ["dev-eu"]) ∧
  fetchKonfs Scenario.fsYml
  = Err (PathError "open" "konf/store/dev-eu_dev-eu-1.yaml" ENOENT) ∧
  ¬ ∃ out, fetchKonfs Scenario.fsYml = Ok out ∧
           length out
           = length (filter visible (readDir Scenario.fsYml StoreDir)).
Proof.
  assert (fetchKonfs Scenario.fsYml
          = Err (PathError "open" "konf/store/dev-eu_dev-eu-1.yaml" ENOENT))
    as Hfetch by (vm_compute; reflexivity).
  split_and!; [vm_compute; reflexivity..|exact Hfetch|].
  intros (out & Hout & _). rewrite Hfetch in Hout. discriminate.
Qed.

Lemma fetchKonfs_no_entry_panics_witness :
  fetchKonfs Sample.fsNoEntries = Panicked (IndexOutOfRange 0 0).
Proof.
  apply (fetchKonfs_no_entry_panics Sample.fsNoEntries []
           [Sample.file "dev-eu_dev-eu-1.yaml"] (Sample.file "blank.yaml")
           (Sample.config [] [])).
  - split; vm_compute; reflexivity.
  - vm_compute; reflexivity.
  - apply Forall_nil_2.
  - vm_compute; reflexivity.
  - vm_compute; discriminate.
  - vm_compute; discriminate.
  - by left.
Defined.

Lemma completeSet_fetchKonfs_witness :
  completeSet Sample.fsTwo
  = Ok (Some ["dev-asia_dev-asia-1"; "dev-eu_dev-eu-1"],
        ShellCompDirectiveNoFileComp) ∧
  completeSet (Sample.storeWith [])
  = Ok (Some [], ShellCompDirectiveNoFileComp) ∧
  completeSet Sample.fsTwoOverloaded = Ok (None, ShellCompDirectiveError) ∧
  completeSet Scenario.fsWithBad
  = Ok (Some ["dev-asia_dev-asia-1"; "dev-eu_dev-eu-1"],
        ShellCompDirectiveNoFileComp) ∧
  completeSet Scenario.fsYml = Ok (None, ShellCompDirectiveError).
Proof.
  split_and!.
  - rewrite (proj1 (completeSet_fetchKonfs Sample.fsTwo)
               [{| Context := "dev-asia"; Cluster := "dev-asia-1";
                   File := "konf/store/dev-asia_dev-asia-1.yaml" |};
                {| Context := "dev-eu"; Cluster := "dev-eu-1";
                   File := "konf/store/dev-eu_dev-eu-1.yaml" |}])
      by (vm_compute; reflexivity).
    reflexivity.
  - destruct (proj2 (proj2 (proj2
               (completeSet_fetchKonfs (Sample.storeWith []))))) as [Hnone _];
      [split; vm_compute; reflexivity|].
    apply Hnone. vm_compute; reflexivity.
  - rewrite (proj1 (proj2 (proj2
               (completeSet_fetchKonfs Sample.fsTwoOverloaded)))
               (KubeConfigOverload "konf/store/a.yaml"));
      [reflexivity|vm_compute; reflexivity|discriminate].
  - destruct (proj2 (proj2 (proj2
               (completeSet_fetchKonfs Scenario.fsWithBad))))
      as (_ & Hall & _); [split; vm_compute; reflexivity|].
    etrans; [apply Hall|vm_compute; reflexivity].
    + vm_compute; discriminate.
    + assert (storeKonfs Scenario.fsWithBad
              = [Sample.file "dev-asia_dev-asia-1.yaml";
                 Sample.file "dev-eu_dev-eu-1.yaml";
                 Sample.file "no-konf.yaml"]) as ->
        by (vm_compute; reflexivity).
      repeat apply Forall_cons_2; [| | |apply Forall_nil_2].
      * right. eexists.
        exists (k8s.Build_NamedContext "dev-asia"),
               (k8s.Build_NamedCluster "dev-asia-1").
        split; [vm_compute|]; reflexivity.
      * right. eexists.
        exists (k8s.Build_NamedContext "dev-eu"),
               (k8s.Build_NamedCluster "dev-eu-1").
        split; [vm_compute|]; reflexivity.
      * left. vm_compute; reflexivity.
  - destruct (proj2 (proj2 (proj2
               (completeSet_fetchKonfs Scenario.fsYml))))
      as (_ & _ & Herr); [split; vm_compute; reflexivity|].
    apply (Herr [] (Sample.file "dev-eu_dev-eu-1.yml") []).
    + vm_compute; reflexivity.
    + apply Forall_nil_2.
    + right. eexists. vm_compute; reflexivity.
Defined.

(** C9 as stated fails: [completeSet] does not return on every state of
    the store.  With a kubeconfig without contexts in the store, and
    without a store directory, the panic of [fetchKonfs] goes through
    it. *)
Lemma completeSet_fetchKonfs_counterexample :
  storePresent Sample.fsNoEntries ∧
  completeSet Sample.fsNoEntries = Panicked (IndexOutOfRange 0 0) ∧
  completeSet (∅ : Fs) = Panicked NilDereference ∧
  ¬ ∃ suggestions directive,
      completeSet Sample.fsNoEntries = Ok (suggestions, directive).
Proof.
  assert (completeSet Sample.fsNoEntries = Panicked (IndexOutOfRange 0 0))
    as Hpanic by (vm_compute; reflexivity).
  split_and!; [split; vm_compute; reflexivity|exact Hpanic|
               vm_compute; reflexivity|].
  intros (suggestions & directive & Hret). rewrite Hpanic in Hret.
  discriminate.
Qed.

Lemma selectContext_negative_witness :
  selectContext Sample.fsTwo (Sample.pick (-1))
  = Panicked (IndexOutOfRange (-1) 2).
Proof.
  rewrite (selectContext_negative Sample.fsTwo (Sample.pick (-1))
             [{| Context := "dev-asia"; Cluster := "dev-asia-1";
                 File := "konf/store/dev-asia_dev-asia-1.yaml" |};
              {| Context := "dev-eu"; Cluster := "dev-eu-1";
                 File := "konf/store/dev-eu_dev-eu-1.yaml" |}] (-1));
    [reflexivity|vm_compute; reflexivity|reflexivity|reflexivity].
Defined.

Lemma searchKonf_subsequence_witness :
  ∃ b : bool,
    searchKonf "textclu"
      {| Context := "context"; Cluster := "cluster"; File := "file" |}
    = Ok b ∧
    (b = true ↔
     matchesExact "textclu"
       {| Context := "context"; Cluster := "cluster"; File := "file" |}).
Proof.
  apply (searchKonf_subsequence "textclu"
           {| Context := "context"; Cluster := "cluster"; File := "file" |}).
  vm_compute. exact I.
Defined.

(** C3 as stated fails: the search term "A" occurs in "a b c" when case
    is ignored, and [searchKonf] does not find it. *)
Lemma searchKonf_case_counterexample :
  matchesFold "A" Sample.abc ∧ searchKonf "A" Sample.abc = Ok false.
Proof.
  split; [|vm_compute; reflexivity].
  unfold matchesFold. vm_compute. apply sublist_skip, sublist_nil_l.
Qed.

(** The tests of [searchKonf]. *)
Example searchKonf_tests :
  searchKonf "a b c" Sample.abc = Ok true ∧
  searchKonf "abc" Sample.abc = Ok true ∧
  searchKonf "textclu"
    {| Context := "context"; Cluster := "cluster"; File := "file" |}
  = Ok true ∧
  searchKonf "oranges"
    {| Context := "apples"; Cluster := "and"; File := "bananas" |}
  = Ok false.
Proof. split_and!; vm_compute; reflexivity. Qed.

(** On a surface that is not valid UTF-8 the slice after an invalid byte
    can go past the end of the string. *)
Example searchKonf_invalid_surface :
  searchKonf (String "255" "")
    {| Context := "a"; Cluster := "b"; File := String "255" "" |}
  = Panicked (SliceOutOfRange 7 5).
Proof. vm_compute; reflexivity. Qed.

(** The tests of [fetchKonfs], [completeSet] and [selectContext]. *)
Example fetchKonfs_tests :
  fetchKonfs (Sample.storeWith []) = Err EmptyStore ∧
  fetchKonfs (Sample.storeWith [("empty", DirNode)]) = Err EmptyStore ∧
  fetchKonfs
    (Sample.storeWith
       [Sample.euFile; Sample.asiaFile;
        ("no-konf.yaml", FileNode Sample.docInvalid);
        (".DS_Store", FileNode "x"); ("empty", DirNode)])
  = Ok [{| Context := "dev-asia"; Cluster := "dev-asia-1";
           File := "konf/store/dev-asia_dev-asia-1.yaml" |};
        {| Context := "dev-eu"; Cluster := "dev-eu-1";
           File := "konf/store/dev-eu_dev-eu-1.yaml" |}] ∧
  selectContext Sample.fsTwo (Sample.pick 1) = Ok "dev-eu_dev-eu-1" ∧
  selectContext Sample.fsTwo (Sample.pick 2)
  = Err (Errorf "invalid selection %d" [ArgInt 2]).
Proof. split_and!; vm_compute; reflexivity. Qed.

(** The end-to-end scenario: [set] with an identifier, then [set -]. *)
Example set_then_set_last :
  (let '(f1, out1, r1) := set Sample.fsTwo ["dev-eu_dev-eu-1"] in
   let '(f2, out2, r2) := set f1 ["-"] in
   (out1, r1, out2, r2, bool_decide (f2 = f1),
    ReadFile f1 "konf/active/4711.yaml"))
  = (["KUBECONFIGCHANGE:konf/active/4711.yaml"], Ok (),
     ["KUBECONFIGCHANGE:konf/active/4711.yaml"], Ok (), true,
     Ok Sample.docEU).
Proof. vm_compute; reflexivity. Qed.

(** *** More properties on the sample installation *)

Lemma set_succeeds_witness :
  set Sample.fsTwo ["dev-eu_dev-eu-1"]
  = (<["konf/latestkonf" := FileNode "dev-eu_dev-eu-1"]>
       (<["konf/active/4711.yaml" := FileNode Sample.docEU]> Sample.fsTwo),
     ["KUBECONFIGCHANGE:konf/active/4711.yaml"], Ok ()).
Proof.
  etrans; [apply (set_succeeds Sample.fsTwo "dev-eu_dev-eu-1" Sample.docEU)|].
  - discriminate.
  - vm_compute; reflexivity.
  - vm_compute; reflexivity.
  - vm_compute; reflexivity.
  - vm_compute; discriminate.
  - vm_compute; discriminate.
  - vm_compute; reflexivity.
Defined.

Lemma set_signal_witness :
  ((set Sample.fsTwo ["i-am-invalid"]).2 = Ok () ∧
   (set Sample.fsTwo ["i-am-invalid"]).1.2 = [signal]) ∨
  ((set Sample.fsTwo ["i-am-invalid"]).2 ≠ Ok () ∧
   (set Sample.fsTwo ["i-am-invalid"]).1.2 = []).
Proof.
  apply (set_signal Sample.fsTwo (set Sample.fsTwo ["i-am-invalid"]).1.1
           ["i-am-invalid"]).
  by destruct (set Sample.fsTwo ["i-am-invalid"]) as [[? ?] ?].
Defined.

Lemma set_frame_witness :
  (∀ data,
     (set Sample.fsTwo ["dev-eu_dev-eu-1"]).1.1
       !! "konf/store/dev-eu_dev-eu-1.yaml" = Some (FileNode data) ↔
     Sample.fsTwo !! "konf/store/dev-eu_dev-eu-1.yaml"
     = Some (FileNode data)) ∧
  (Sample.fsTwo !! "konf/store/dev-eu_dev-eu-1.yaml" = Some DirNode →
   (set Sample.fsTwo ["dev-eu_dev-eu-1"]).1.1
     !! "konf/store/dev-eu_dev-eu-1.yaml" = Some DirNode).
Proof.
  apply (set_frame Sample.fsTwo _ ["dev-eu_dev-eu-1"]
           (set Sample.fsTwo ["dev-eu_dev-eu-1"]).1.2
           (set Sample.fsTwo ["dev-eu_dev-eu-1"]).2).
  - by destruct (set Sample.fsTwo ["dev-eu_dev-eu-1"]) as [[? ?] ?].
  - intros Heq; vm_compute in Heq; discriminate.
  - intros Heq; vm_compute in Heq; discriminate.
Defined.

Lemma set_last_repeats_witness :
  set (set Sample.fsTwo ["dev-eu_dev-eu-1"]).1.1 ["-"]
  = ((set Sample.fsTwo ["dev-eu_dev-eu-1"]).1.1,
     ["KUBECONFIGCHANGE:konf/active/4711.yaml"], Ok ()).
Proof.
  apply (set_last_repeats Sample.fsTwo _ "dev-eu_dev-eu-1").
  - discriminate.
  - intros Heq; vm_compute in Heq; discriminate.
  - intros Heq; vm_compute in Heq; discriminate.
  - vm_compute; reflexivity.
Defined.

Lemma set_failure_witness :
  (set Sample.fsLatestDir ["dev-eu_dev-eu-1"]).1.1 = Sample.fsLatestDir ∨
  ∃ id konf err,
    Sample.fsLatestDir !! StorePathForID id = Some (FileNode konf) ∧
    (set Sample.fsLatestDir ["dev-eu_dev-eu-1"]).1.1
    = <[activePath := FileNode konf]> Sample.fsLatestDir ∧
    saveLatestKonf (set Sample.fsLatestDir ["dev-eu_dev-eu-1"]).1.1 id
    = ((set Sample.fsLatestDir ["dev-eu_dev-eu-1"]).1.1, Some err) ∧
    (set Sample.fsLatestDir ["dev-eu_dev-eu-1"]).2
    = Err (Errorf
        "could not save latest konf. As a result 'konf set -' might not work: %q "
        [ArgError err]).
Proof.
  apply (set_failure Sample.fsLatestDir _ ["dev-eu_dev-eu-1"]
           (set Sample.fsLatestDir ["dev-eu_dev-eu-1"]).1.2).
  - by destruct (set Sample.fsLatestDir ["dev-eu_dev-eu-1"]) as [[? ?] ?].
  - vm_compute; discriminate.
Defined.

Lemma set_unknown_id_witness :
  set Sample.fsTwo ["i-am-invalid"]
  = (Sample.fsTwo, [],
     Err (PathError "open" "konf/store/i-am-invalid.yaml" ENOENT)).
Proof.
  etrans; [apply (set_unknown_id Sample.fsTwo "i-am-invalid")|].
  - discriminate.
  - vm_compute; reflexivity.
  - reflexivity.
Defined.

Lemma fetchKonfs_Ok_witness :
  storeKonfs Scenario.fsWithBad ≠ [] ∧
  Forall (λ k, malformed Scenario.fsWithBad k ∨
               ∃ t, indexedAs Scenario.fsWithBad k t)
    (storeKonfs Scenario.fsWithBad) ∧
  [Scenario.asia; Scenario.eu]
  = omap (indexKonf Scenario.fsWithBad) (storeKonfs Scenario.fsWithBad).
Proof.
  apply (fetchKonfs_Ok Scenario.fsWithBad [Scenario.asia; Scenario.eu]).
  - split; vm_compute; reflexivity.
  - vm_compute; reflexivity.
Defined.

Lemma fetchKonfs_Err_witness :
  (KubeConfigOverload "konf/store/a.yaml" = EmptyStore ∧
   storeKonfs Sample.fsTwoOverloaded = []) ∨
  (storeKonfs Sample.fsTwoOverloaded ≠ [] ∧
   ∃ k, k ∈ storeKonfs Sample.fsTwoOverloaded ∧
     ((overloaded Sample.fsTwoOverloaded k ∧
       KubeConfigOverload "konf/store/a.yaml"
       = KubeConfigOverload (konfPath k)) ∨
      (readKonf Sample.fsTwoOverloaded k
       = Err (KubeConfigOverload "konf/store/a.yaml") ∧
       ∃ op errno,
         KubeConfigOverload "konf/store/a.yaml"
         = PathError op (konfPath k) errno))).
Proof.
  apply (fetchKonfs_Err Sample.fsTwoOverloaded
           (KubeConfigOverload "konf/store/a.yaml")).
  - split; vm_compute; reflexivity.
  - vm_compute; reflexivity.
Defined.

Lemma fetchKonfs_EmptyStore_witness :
  fetchKonfs Scenario.fsNothingVisible = Err EmptyStore.
Proof.
  apply (fetchKonfs_EmptyStore Scenario.fsNothingVisible).
  - split; vm_compute; reflexivity.
  - vm_compute; reflexivity.
Defined.

Lemma fetchKonfs_missing_store_witness :
  fetchKonfs (∅ : Fs) = Panicked NilDereference.
Proof. apply (fetchKonfs_missing_store ∅). apply lookup_empty. Defined.

Lemma fetchKonfs_store_is_file_witness :
  fetchKonfs Scenario.fsStoreIsFile = Err EmptyStore.
Proof.
  apply (fetchKonfs_store_is_file Scenario.fsStoreIsFile "x").
  - vm_compute; reflexivity.
  - vm_compute; reflexivity.
Defined.

Lemma fetchKonfs_unreadable_witness :
  fetchKonfs Scenario.fsNotes
  = Err (PathError "open" "konf/store/a-notes.yaml" ENOENT).
Proof.
  etrans;
    [apply (fetchKonfs_unreadable Scenario.fsNotes []
              [Sample.file "dev-eu_dev-eu-1.yaml"]
              (Sample.file "a-notes.txt"))|].
  - split; vm_compute; reflexivity.
  - vm_compute; reflexivity.
  - apply Forall_nil_2.
  - vm_compute; reflexivity.
  - vm_compute; reflexivity.
Defined.

Lemma fetchKonfs_depends_on_visible_witness :
  fetchKonfs Scenario.fsCluttered = fetchKonfs Sample.fsTwo.
Proof.
  apply (fetchKonfs_depends_on_visible Scenario.fsCluttered Sample.fsTwo).
  - split; vm_compute; reflexivity.
  - split; vm_compute; reflexivity.
  - vm_compute; reflexivity.
  - assert (readDir Scenario.fsCluttered StoreDir
            = [{| Name := ".DS_Store"; IsDir := false |};
               Sample.file "dev-asia_dev-asia-1.yaml";
               Sample.file "dev-eu_dev-eu-1.yaml";
               {| Name := "old"; IsDir := true |}]) as ->
      by (vm_compute; reflexivity).
    intros k Hk Hvisible.
    repeat (apply elem_of_cons in Hk as [->|Hk]);
      [by vm_compute in Hvisible|vm_compute; reflexivity|
       vm_compute; reflexivity|by vm_compute in Hvisible|
       by apply elem_of_nil in Hk].
Defined.

Lemma set_keeps_index_witness :
  fetchKonfs (set Sample.fsTwo ["dev-eu_dev-eu-1"]).1.1
  = fetchKonfs Sample.fsTwo.
Proof.
  apply (set_keeps_index Sample.fsTwo _ ["dev-eu_dev-eu-1"]
           (set Sample.fsTwo ["dev-eu_dev-eu-1"]).1.2
           (set Sample.fsTwo ["dev-eu_dev-eu-1"]).2).
  - split; vm_compute; reflexivity.
  - intros Heq; vm_compute in Heq; discriminate.
  - intros Heq; vm_compute in Heq; discriminate.
  - vm_compute; reflexivity.
  - vm_compute; reflexivity.
  - intros id. split; intros Heq; vm_compute in Heq; discriminate.
  - by destruct (set Sample.fsTwo ["dev-eu_dev-eu-1"]) as [[? ?] ?].
Defined.

Lemma fetchKonfs_sound_witness :
  ∃ val context cluster,
    Sample.fsTwo !! File Scenario.eu = Some (FileNode val) ∧
    Unmarshal val
    = Some {| k8s.Clusters := [cluster]; k8s.Contexts := [context] |} ∧
    Context Scenario.eu = k8s.ContextName context ∧
    Cluster Scenario.eu = k8s.ClusterName cluster.
Proof.
  apply (fetchKonfs_sound Sample.fsTwo [Scenario.asia; Scenario.eu]).
  - split; vm_compute; reflexivity.
  - vm_compute; reflexivity.
  - apply list_elem_of_further, list_elem_of_here.
Defined.

Lemma searchKonf_valid_entry_witness :
  ∃ b : bool, searchKonf "eu1" Scenario.eu = Ok b ∧
    (b = true ↔
     runes (bytes "eu1")
       `sublist_of` runes (bytes (Context Scenario.eu)) ++ [32]
                    ++ runes (bytes (Cluster Scenario.eu)) ++ [32]
                    ++ runes (bytes (File Scenario.eu))).
Proof.
  apply (searchKonf_valid_entry "eu1" Scenario.eu).
  split_and!; vm_compute; exact I.
Defined.

Lemma searchKonf_fields_witness :
  searchKonf "dev-eu" Scenario.eu = Ok true ∧
  searchKonf "dev-eu-1" Scenario.eu = Ok true ∧
  searchKonf "konf/store/dev-eu_dev-eu-1.yaml" Scenario.eu = Ok true ∧
  searchKonf "dev-eudev-eu-1" Scenario.eu = Ok true.
Proof.
  apply (searchKonf_fields Scenario.eu).
  split_and!; vm_compute; exact I.
Defined.

Lemma searchKonf_narrows_witness :
  searchKonf "tcl"
    {| Context := "context"; Cluster := "cluster"; File := "file" |}
  = Ok true.
Proof.
  apply (searchKonf_narrows "tcl" "textclu").
  - vm_compute; exact I.
  - vm_compute. apply sublist_skip, sublist_cons, sublist_cons, sublist_cons.
    apply sublist_skip, sublist_skip, sublist_cons, sublist_nil_l.
  - vm_compute; reflexivity.
Defined.

Lemma searchKonf_ASCII_witness :
  ∃ b : bool, searchKonf "abc" Sample.abc = Ok b ∧
    (b = true ↔ bytes "abc" `sublist_of` bytes (searchSurface Sample.abc)).
Proof.
  apply (searchKonf_ASCII "abc" Sample.abc);
    unfold isASCII; cbn; repeat constructor.
Defined.

Lemma createPrompt_Searcher_witness :
  Items (createPrompt [Scenario.asia; Scenario.eu])
  = [Scenario.asia; Scenario.eu] ∧
  (0 ≤ 1 < len [Scenario.asia; Scenario.eu] →
   ∃ t b, [Scenario.asia; Scenario.eu] !! Z.to_nat 1 = Some t ∧
          Searcher (createPrompt [Scenario.asia; Scenario.eu]) "eu" 1
          = Ok b ∧
          (b = true ↔ matchesExact "eu" t)) ∧
  (¬ 0 ≤ 1 < len [Scenario.asia; Scenario.eu] →
   Searcher (createPrompt [Scenario.asia; Scenario.eu]) "eu" 1
   = Panicked (IndexOutOfRange 1 (len [Scenario.asia; Scenario.eu]))).
Proof.
  apply (createPrompt_Searcher [Scenario.asia; Scenario.eu] "eu" 1).
  repeat apply Forall_cons_2; [| |apply Forall_nil_2];
    split_and!; vm_compute; exact I.
Defined.

Lemma selectContext_Err_witness :
  fetchKonfs Sample.fsTwo = Err (Errorf "invalid selection %d" [ArgInt 2]) ∨
  ∃ k selPos,
    fetchKonfs Sample.fsTwo = Ok k ∧
    (Sample.pick 2 (createPrompt k)
     = (selPos, Some (Errorf "invalid selection %d" [ArgInt 2])) ∨
     (Sample.pick 2 (createPrompt k) = (selPos, None) ∧ len k ≤ selPos ∧
      Errorf "invalid selection %d" [ArgInt 2]
      = Errorf "invalid selection %d" [ArgInt selPos])).
Proof.
  apply (selectContext_Err Sample.fsTwo (Sample.pick 2)).
  vm_compute; reflexivity.
Defined.

Lemma completeSet_selectContext_witness :
  "dev-eu_dev-eu-1" ∈ ["dev-asia_dev-asia-1"; "dev-eu_dev-eu-1"] ↔
  ∃ pf, selectContext Sample.fsTwo pf = Ok "dev-eu_dev-eu-1".
Proof.
  apply (completeSet_selectContext Sample.fsTwo _
           ShellCompDirectiveNoFileComp).
  vm_compute; reflexivity.
Defined.

Lemma set_picked_missing_witness :
  set Scenario.fsRenamed []
  = (Scenario.fsRenamed, [],
     Err (PathError "open" "konf/store/dev-eu_dev-eu-1.yaml" ENOENT)).
Proof.
  etrans;
    [apply (set_picked_missing Scenario.fsRenamed
              [{| Context := "dev-eu"; Cluster := "dev-eu-1";
                  File := "konf/store/prod.yaml" |}] 0
              {| Context := "dev-eu"; Cluster := "dev-eu-1";
                 File := "konf/store/prod.yaml" |})|].
  - vm_compute; reflexivity.
  - reflexivity.
  - reflexivity.
  - vm_compute; reflexivity.
  - vm_compute; reflexivity.
Defined.

Lemma set_picked_witness :
  ∃ konf,
    Sample.fsTwo !! File Scenario.asia = Some (FileNode konf) ∧
    set Sample.fsTwo []
    = (<[LatestKonfFile := FileNode (entryID Scenario.asia)]>
         (<[activePath := FileNode konf]> Sample.fsTwo),
       [signal], Ok ()).
Proof.
  apply (set_picked Sample.fsTwo [Scenario.asia; Scenario.eu] 0).
  - split; vm_compute; reflexivity.
  - vm_compute; reflexivity.
  - reflexivity.
  - reflexivity.
  - vm_compute; reflexivity.
  - vm_compute; reflexivity.
  - vm_compute; reflexivity.
  - vm_compute; discriminate.
  - vm_compute; discriminate.
Defined.

(** The labels that the tests of [prepareTable] expect. *)
Example prepareTable_tests :
  snd <$> prepareTable 25
  = Some "  Context                   | Cluster                   | File                      " ∧
  snd <$> prepareTable 10
  = Some "  Context    | Cluster    | File       " ∧
  snd <$> prepareTable 5 = Some "  Context | Cluster | File    ".
Proof. split_and!; vm_compute; reflexivity. Qed.

Lemma searchKonf_absent_rune_witness :
  searchKonf "oranges"
    {| Context := "apples"; Cluster := "and"; File := "bananas" |}
  = Ok false.
Proof.
  apply (searchKonf_absent_rune "oranges" _ 111).
  - vm_compute; exact I.
  - vm_compute. apply list_elem_of_here.
  - vm_compute. intros Hin.
    repeat (apply elem_of_cons in Hin as [Heq|Hin]; [discriminate|]).
    by apply elem_of_nil in Hin.
Defined.
